(** * goconfig: a gitconfig scanner, embedded and verified

    Shallow embedding of [goconfig.go] (package [goconfig]): the cursor
    ([parser] and [nextRune]), the classifiers, the section-header parsers
    ([getSectionKey], [getExtendedSectionKey]), the key/value parsers
    ([getValue], [parseValue]) and the driver ([parse], [Parse]).

    Conventions of the embedding
    - a [rune] is an integer code point ([Z]); a Go [string] is the list of
      the code points it encodes (the input is [[]rune(string(bytes))], so
      every rune is a valid code point and [string(c)] is one-to-one on
      them; [len(value) > 0] is "the list is not empty");
    - [cf.linenr] is a Go [uint]: a 64-bit counter, its wrap-around is
      written out in [uint_inc] and [uint_dec];
    - the mutable [*parser] receiver is threaded explicitly: every function
      takes the cursor and returns the updated one;
    - Go's [(value, error)] results are pairs [(value, option Error)];
    - every [for] loop is a [Fixpoint] on a fuel argument ([None] = fuel
      exhausted); section [Termination] shows that fuel proportional to
      the remaining input always suffices;
    - the tables of Go's [unicode] package ([IsSpace], [IsLetter],
      [IsNumber], [ToLower]) are not part of the repository: they are the
      methods of the class [UnicodeTables], with the facts about them that
      the proofs use as its laws. *)

From Stdlib Require Import ZArith Lia.
From stdpp Require Import strings gmap list.

Local Open Scope Z_scope.

(** ** Runes and strings

    The code points the source names: backspace, tab, newline, carriage
    return, space, double quote, hash, minus, dot, semicolon, equals, the
    two square brackets, backslash, and the letters b, n and t. *)

Abbreviation rune := Z (only parsing).
Abbreviation gostring := (list Z) (only parsing).

Abbreviation BSP := 8 (only parsing).
Abbreviation TAB := 9 (only parsing).
Abbreviation NL := 10 (only parsing).
Abbreviation CR := 13 (only parsing).
Abbreviation SP := 32 (only parsing).
Abbreviation DQUOTE := 34 (only parsing).
Abbreviation HASH := 35 (only parsing).
Abbreviation MINUS := 45 (only parsing).
Abbreviation DOT := 46 (only parsing).
Abbreviation SEMI := 59 (only parsing).
Abbreviation EQUALS := 61 (only parsing).
Abbreviation LBRACKET := 91 (only parsing).
Abbreviation BACKSLASH := 92 (only parsing).
Abbreviation RBRACKET := 93 (only parsing).
Abbreviation LOWER_B := 98 (only parsing).
Abbreviation LOWER_N := 110 (only parsing).
Abbreviation LOWER_T := 116 (only parsing).

(** An ASCII literal as the runes it decodes to. *)
Fixpoint runes_of (s : string) : gostring :=
  match s with
  | EmptyString => []
  | String a s' => Z.of_N (Ascii.N_of_ascii a) :: runes_of s'
  end.

(** ** The [unicode] package, as an interface *)

Definition ascii_space (c : rune) : bool :=
  (c =? 9) || (c =? 10) || (c =? 11) || (c =? 12) || (c =? 13) || (c =? 32).

Definition ascii_letter (c : rune) : bool :=
  ((65 <=? c) && (c <=? 90)) || ((97 <=? c) && (c <=? 122)).

Definition ascii_digit (c : rune) : bool := (48 <=? c) && (c <=? 57).

Definition ascii_lower (c : rune) : rune :=
  if (65 <=? c) && (c <=? 90) then c + 32 else c.

Class UnicodeTables := {
  IsSpace : rune -> bool;
  IsLetter : rune -> bool;
  IsNumber : rune -> bool;
  ToLower : rune -> rune;
  (* on ASCII the tables are the familiar ones *)
  IsSpace_ascii : forall c, 0 <= c < 128 -> IsSpace c = ascii_space c;
  IsLetter_ascii : forall c, 0 <= c < 128 -> IsLetter c = ascii_letter c;
  IsNumber_ascii : forall c, 0 <= c < 128 -> IsNumber c = ascii_digit c;
  ToLower_ascii : forall c, 0 <= c < 128 -> ToLower c = ascii_lower c;
  (* White_Space code points are neither letters nor numbers *)
  IsLetter_not_space : forall c, IsLetter c = true -> IsSpace c = false;
  IsNumber_not_space : forall c, IsNumber c = true -> IsSpace c = false
}.

(** The tables cut down to ASCII (every code point from 128 on is left
    unclassified and unchanged): the instance on which the concrete,
    ASCII-only inputs below are evaluated. *)
Definition ascii_only (f : rune -> bool) (c : rune) : bool :=
  (0 <=? c) && (c <? 128) && f c.

#[refine] Instance ascii_tables : UnicodeTables := {|
  IsSpace := ascii_only ascii_space;
  IsLetter := ascii_only ascii_letter;
  IsNumber := ascii_only ascii_digit;
  ToLower := fun c => if (0 <=? c) && (c <? 128) then ascii_lower c else c
|}.
Proof.
  all: unfold ascii_only, ascii_space, ascii_letter, ascii_digit; intros c H.
  1-4: destruct (Z.leb_spec 0 c), (Z.ltb_spec c 128); try lia; reflexivity.
  all: apply andb_true_iff in H as [_ H]; apply andb_false_iff; right; lia.
Defined.

(** ** Data model *)

Inductive Error : Set :=
| ErrInvalidKeyChar
| ErrUnexpectedEOF
| ErrInvalidSectionChar
| ErrSectionNewLine
| ErrMissingStartQuote
| ErrMissingClosingBracket
| ErrInvalidEscapeSequence
| ErrUnfinishedQuote.

(** [type parser struct { runes []rune; linenr uint; eof bool }] *)
Record parser : Set := mkParser {
  runes : list Z;
  linenr : Z;
  eof : bool
}.

Definition uint_inc (n : Z) : Z := (n + 1) mod 2 ^ 64.
Definition uint_dec (n : Z) : Z := (n - 1) mod 2 ^ 64.

Definition set_runes (rs : list Z) (cf : parser) : parser :=
  mkParser rs (linenr cf) (eof cf).
Definition set_linenr (n : Z) (cf : parser) : parser :=
  mkParser (runes cf) n (eof cf).
Definition set_eof (b : bool) (cf : parser) : parser :=
  mkParser (runes cf) (linenr cf) b.

(** How a loop that can [break] or [return] an error is left. *)
Inductive loop_exit (A : Type) : Type :=
| Break (a : A)
| Return (e : Error).
Arguments Break {A} a.
Arguments Return {A} e.

(** ** The cursor *)

(** [func (cf *parser) nextRune() rune], statement by statement.  The
    second [len(cf.runes) == 0] test of the source is kept as it is
    written; [nextRune_second_test_dead] shows it never fires. *)
Definition nextRune (cf : parser) : rune * parser :=
  if (length (runes cf) =? 0)%nat then (NL, set_eof true cf)
  else
    let c := hd 0 (runes cf) in
    let '(c, cf) :=
      if c =? CR then
        if (1 <? length (runes cf))%nat && (nth 1 (runes cf) 0 =? NL)
        then (NL, set_runes (tl (runes cf)) cf)
        else (c, cf)
      else (c, cf) in
    let cf := if c =? NL then set_linenr (uint_inc (linenr cf)) cf else cf in
    let '(c, cf) :=
      if (length (runes cf) =? 0)%nat
      then (NL, set_linenr (uint_inc (linenr cf)) (set_eof true cf))
      else (c, cf) in
    (c, set_runes (tl (runes cf)) cf).

Section Goconfig.
Context {U : UnicodeTables}.

(** ** Classifiers *)

Definition lower (c : rune) : rune := ToLower c.
Definition isspace (c : rune) : bool := IsSpace c.
Definition isalpha (c : rune) : bool := IsLetter c.
Definition isnum (c : rune) : bool := IsNumber c.
Definition isalnum (c : rune) : bool := isalpha c || isnum c.
Definition iskeychar (c : rune) : bool := isalnum c || (c =? MINUS).

(** ** Section headers *)

(** First loop of [getExtendedSectionKey]: skip the white space between
    the base name and the opening quote. *)
Fixpoint getExtendedSectionKey_space (fuel : nat) (c : rune) (cf : parser)
  : option (loop_exit rune * parser) :=
  match fuel with
  | O => None
  | S fuel =>
    if c =? NL then
      Some (Return ErrSectionNewLine, set_linenr (uint_dec (linenr cf)) cf)
    else
      let '(c, cf) := nextRune cf in
      if negb (isspace c) then Some (Break c, cf)
      else getExtendedSectionKey_space fuel c cf
  end.

(** Second loop of [getExtendedSectionKey]: the quoted subsection. *)
Fixpoint getExtendedSectionKey_quoted (fuel : nat) (name : gostring) (cf : parser)
  : option (loop_exit gostring * parser) :=
  match fuel with
  | O => None
  | S fuel =>
    let '(c, cf) := nextRune cf in
    if c =? NL then
      Some (Return ErrSectionNewLine, set_linenr (uint_dec (linenr cf)) cf)
    else if c =? DQUOTE then Some (Break name, cf)
    else if c =? BACKSLASH then
      let '(c, cf) := nextRune cf in
      if c =? NL then
        Some (Return ErrSectionNewLine, set_linenr (uint_dec (linenr cf)) cf)
      else getExtendedSectionKey_quoted fuel (name ++ [c]) cf
    else getExtendedSectionKey_quoted fuel (name ++ [c]) cf
  end.

(** [func (cf *parser) getExtendedSectionKey(name string, c rune) (string, error)] *)
Definition getExtendedSectionKey (fuel : nat) (name : gostring) (c : rune) (cf : parser)
  : option ((gostring * option Error) * parser) :=
  match getExtendedSectionKey_space fuel c cf with
  | None => None
  | Some (Return e, cf) => Some (([], Some e), cf)
  | Some (Break c, cf) =>
    if negb (c =? DQUOTE) then Some (([], Some ErrMissingStartQuote), cf)
    else
      let name := name ++ [DOT] in
      match getExtendedSectionKey_quoted fuel name cf with
      | None => None
      | Some (Return e, cf) => Some (([], Some e), cf)
      | Some (Break name, cf) =>
        let '(c, cf) := nextRune cf in
        if negb (c =? RBRACKET) then Some (([], Some ErrMissingClosingBracket), cf)
        else Some ((name, None), cf)
      end
  end.

(** The loop of [getSectionKey]. *)
Fixpoint getSectionKey_loop (fuel : nat) (name : gostring) (cf : parser)
  : option ((gostring * option Error) * parser) :=
  match fuel with
  | O => None
  | S fuel =>
    let '(c, cf) := nextRune cf in
    if eof cf then Some (([], Some ErrUnexpectedEOF), cf)
    else if c =? RBRACKET then Some ((name, None), cf)
    else if isspace c then getExtendedSectionKey fuel name c cf
    else if negb (iskeychar c) && negb (c =? DOT) then
      Some (([], Some ErrInvalidSectionChar), cf)
    else getSectionKey_loop fuel (name ++ [lower c]) cf
  end.

(** [func (cf *parser) getSectionKey() (string, error)] *)
Definition getSectionKey (fuel : nat) (cf : parser)
  : option ((gostring * option Error) * parser) :=
  getSectionKey_loop fuel [] cf.

(** ** Values *)

(** The loop of [parseValue]; [space] is the Go [int] counter of pending
    blanks (a natural number: it only counts up from 0 and back). *)
Fixpoint parseValue_loop (fuel : nat) (quote comment : bool) (space : nat)
    (value : gostring) (cf : parser)
  : option ((gostring * option Error) * parser) :=
  match fuel with
  | O => None
  | S fuel =>
    let '(c, cf) := nextRune cf in
    if c =? NL then
      if quote then
        Some (([], Some ErrUnfinishedQuote), set_linenr (uint_dec (linenr cf)) cf)
      else Some ((value, None), cf)
    else if comment then parseValue_loop fuel quote comment space value cf
    else if isspace c && negb quote then
      parseValue_loop fuel quote comment
        (if (0 <? length value)%nat then S space else space) value cf
    else if negb quote && ((c =? SEMI) || (c =? HASH)) then
      parseValue_loop fuel quote true space value cf
    else
      (* for space != 0 { value += " "; space-- } *)
      let value := value ++ repeat SP space in
      if c =? BACKSLASH then
        let '(c, cf) := nextRune cf in
        if c =? NL then parseValue_loop fuel quote comment O value cf
        else if c =? LOWER_T then parseValue_loop fuel quote comment O (value ++ [TAB]) cf
        else if c =? LOWER_B then parseValue_loop fuel quote comment O (value ++ [BSP]) cf
        else if c =? LOWER_N then parseValue_loop fuel quote comment O (value ++ [NL]) cf
        else Some (([], Some ErrInvalidEscapeSequence), cf)
      else if c =? DQUOTE then parseValue_loop fuel (negb quote) comment O value cf
      else parseValue_loop fuel quote comment O (value ++ [c]) cf
  end.

(** [func (cf *parser) parseValue() (string, error)] *)
Definition parseValue (fuel : nat) (cf : parser)
  : option ((gostring * option Error) * parser) :=
  parseValue_loop fuel false false O [] cf.

(** First loop of [getValue]: the rest of the key name.  It is left with
    the last rune read and the name built. *)
Fixpoint getValue_name (fuel : nat) (name : gostring) (cf : parser)
  : option ((rune * gostring) * parser) :=
  match fuel with
  | O => None
  | S fuel =>
    let '(c, cf) := nextRune cf in
    if eof cf then Some ((c, name), cf)
    else if negb (iskeychar c) then Some ((c, name), cf)
    else getValue_name fuel (name ++ [lower c]) cf
  end.

(** Second loop of [getValue]: [for c == ' ' || c == '\t' { c = cf.nextRune() }]. *)
Fixpoint getValue_blank (fuel : nat) (c : rune) (cf : parser)
  : option (rune * parser) :=
  match fuel with
  | O => None
  | S fuel =>
    if (c =? SP) || (c =? TAB) then
      let '(c, cf) := nextRune cf in getValue_blank fuel c cf
    else Some (c, cf)
  end.

(** [func (cf *parser) getValue(name *string) (string, error)]; the
    in/out parameter [name] is returned next to the value. *)
Definition getValue (fuel : nat) (name : gostring) (cf : parser)
  : option ((gostring * gostring * option Error) * parser) :=
  match getValue_name fuel name cf with
  | None => None
  | Some ((c, name), cf) =>
    match getValue_blank fuel c cf with
    | None => None
    | Some (c, cf) =>
      if negb (c =? NL) then
        if negb (c =? EQUALS) then Some ((name, [], Some ErrInvalidKeyChar), cf)
        else
          match parseValue fuel cf with
          | None => None
          | Some ((value, Some err), cf) => Some ((name, [], Some err), cf)
          | Some ((value, None), cf) => Some ((name, value, None), cf)
          end
      else Some ((name, [], None), cf)
    end
  end.

(** ** The driver *)

(** The loop of [parse]. *)
Fixpoint parse_loop (fuel : nat) (comment : bool) (cfg : gmap (list Z) (list Z))
    (name : gostring) (cf : parser)
  : option ((gmap (list Z) (list Z) * option Error) * parser) :=
  match fuel with
  | O => None
  | S fuel =>
    let '(c, cf) := nextRune cf in
    if c =? NL then
      if eof cf then Some ((cfg, None), cf)
      else parse_loop fuel false cfg name cf
    else if comment || isspace c then parse_loop fuel comment cfg name cf
    else if (c =? HASH) || (c =? SEMI) then parse_loop fuel true cfg name cf
    else if c =? LBRACKET then
      match getSectionKey fuel cf with
      | None => None
      | Some ((_, Some err), cf) => Some ((cfg, Some err), cf)
      | Some ((name, None), cf) => parse_loop fuel comment cfg (name ++ [DOT]) cf
      end
    else if negb (isalpha c) then Some ((cfg, Some ErrInvalidKeyChar), cf)
    else
      let key := name ++ [c] in
      match getValue fuel key cf with
      | None => None
      | Some ((_, _, Some err), cf) => Some ((cfg, Some err), cf)
      | Some ((key, value, None), cf) =>
        parse_loop fuel comment (<[key := value]> cfg) name cf
      end
  end.

(** [func (cf *parser) parse() (map[string]string, error)] *)
Definition parse (fuel : nat) (cf : parser)
  : option ((gmap (list Z) (list Z) * option Error) * parser) :=
  parse_loop fuel false ∅ [] cf.

(** Fuel that is enough for any cursor (section Termination). *)
Definition fuel_for (cf : parser) : nat := (length (runes cf) + 3)%nat.

(** [func Parse(bytes []byte) (map[string]string, uint, error)], on the
    runes [[]rune(string(bytes))] (the conversion is Go's built-in UTF-8
    decoder). *)
Definition Parse (bytes : list Z)
  : option (gmap (list Z) (list Z) * Z * option Error) :=
  let cf := mkParser bytes 1 false in
  match parse (fuel_for cf) cf with
  | None => None
  | Some ((cfg, err), cf) => Some (cfg, linenr cf, err)
  end.

(** ** Vocabulary of the statements *)


(** A rune on which the loop of [getSectionKey] goes on: neither white
    space nor the closing bracket, and a key character or a dot. *)
Definition section_rune (c : Z) : Prop :=
  isspace c = false /\ c <> RBRACKET /\ (iskeychar c = true \/ c = DOT).

(** A white-space rune that does not end the line. *)
Definition blank (c : Z) : Prop := isspace c = true /\ c <> NL.

(** A rune that is appended to the value as it is when met outside
    quotes. *)
Definition value_rune (c : Z) : Prop :=
  isspace c = false /\ c <> SEMI /\ c <> HASH /\ c <> BACKSLASH /\ c <> DQUOTE.

(** A key without section: a letter, then key characters that [lower]
    leaves as they are. *)
Definition plain_key (k : list Z) : Prop :=
  match k with
  | [] => False
  | c :: rest =>
    isalpha c = true /\ Forall (fun c => iskeychar c = true /\ lower c = c) rest
  end.

(** A value that a bare line can carry: spaces and runes that stand for
    themselves, with no space at either end. *)
Definition plain_value (v : list Z) : Prop :=
  Forall (fun c => c = SP \/ value_rune c) v /\ hd 0 v <> SP /\ last v <> Some SP.



(** A rune of a plain section name: a key character or a dot. *)
Definition header_rune (c : Z) : Prop := iskeychar c = true \/ c = DOT.

End Goconfig.

(** ** Vocabulary that does not depend on the tables *)

Abbreviation len cf := (length (runes cf)).

(** The serialization the round-trip property speaks of (the repository
    itself only parses): one line [key = value] per entry, the key in its
    dotted form and the value verbatim.  A Go map has no iteration order,
    so the entries come as a list in whatever order they were visited. *)
Definition serialize (entries : list (list Z * list Z)) : list Z :=
  flat_map (fun kv => kv.1 ++ runes_of " = " ++ kv.2 ++ [NL]) entries.

(** [cfg[key] = value], for an entry given as a pair. *)
Definition put (cfg : gmap (list Z) (list Z)) (kv : list Z * list Z) :
  gmap (list Z) (list Z) := <[kv.1 := kv.2]> cfg.

(** The text between the quotes of an extended header, rune by rune:
    a rune standing for itself, or a backslash and the rune it escapes. *)
Inductive quoted_item : Set :=
| Literal (c : Z)
| Escaped (c : Z).

(** The runes an item is written with, and the rune it stands for. *)
Definition quoted_text (i : quoted_item) : list Z :=
  match i with Literal c => [c] | Escaped c => [BACKSLASH; c] end.

Definition quoted_rune (i : quoted_item) : Z :=
  match i with Literal c | Escaped c => c end.

(** Items the loop reads through: no newline and no carriage return, and
    a literal is neither the closing quote nor a backslash. *)
Definition quoted_ok (i : quoted_item) : Prop :=
  quoted_rune i <> NL /\ quoted_rune i <> CR
  /\ match i with
     | Literal c => c <> DQUOTE /\ c <> BACKSLASH
     | Escaped _ => True
     end.



(** Number of newline runes in a piece of input. *)
Fixpoint newlines (s : list Z) : Z :=
  match s with
  | [] => 0
  | c :: s' => (if c =? NL then 1 else 0) + newlines s'
  end.

(** The errors before which the source takes one off the line counter
    ([cf.linenr--]): the newline in an extended header and the newline
    under an open quote. *)
Definition fault_shift (err : option Error) : Z :=
  match err with
  | Some ErrSectionNewLine | Some ErrUnfinishedQuote => 1
  | _ => 0
  end.

(** What is left of a [loop_exit], as far as the line counter goes. *)
Definition exit_shift {A : Type} (x : loop_exit A) : Z :=
  match x with
  | Break _ => 0
  | Return e => fault_shift (Some e)
  end.

(** From [cf] to [cf']: some runes [s] were read, the line counter (when
    it is a [uint] to begin with) moved by the newlines of [s] less [d],
    and the end-of-input flag is only up when nothing is left. *)
Definition reads (cf cf' : parser) (d : Z) : Prop :=
  exists s, runes cf = s ++ runes cf'
    /\ (0 <= linenr cf < 2 ^ 64 ->
        linenr cf' = (linenr cf + newlines s - d) mod 2 ^ 64)
    /\ ((eof cf = true -> runes cf = []) -> eof cf' = true -> runes cf' = []).

(** A line ends with a newline, alone or after a carriage return. *)
Definition line_end (le : list Z) : Prop := le = [NL] \/ le = [CR; NL].

(** Text with no line break in it. *)
Definition one_line (s : list Z) : Prop := Forall (fun c => c <> NL /\ c <> CR) s.

(** The blanks [getValue] skips between a key name and the equals sign. *)
Definition key_blank (c : Z) : Prop := c = SP \/ c = TAB.

(** A value with no double quote and no backslash in it. *)
Definition quote_free (v : list Z) : Prop :=
  Forall (fun c => c <> DQUOTE /\ c <> BACKSLASH) v.

(** The errors a section header can end in, and the errors a key line
    can end in. *)
Definition header_error (e : Error) : Prop :=
  e = ErrUnexpectedEOF \/ e = ErrInvalidSectionChar \/ e = ErrSectionNewLine
  \/ e = ErrMissingStartQuote \/ e = ErrMissingClosingBracket.

Definition value_error (e : Error) : Prop :=
  e = ErrInvalidEscapeSequence \/ e = ErrUnfinishedQuote.

Definition key_line_error (e : Error) : Prop :=
  e = ErrInvalidKeyChar \/ value_error e.

(** Entries of one section, written under its header: the header line,
    then one line per entry with the bare key name. *)
Definition serialize_section (sec : list Z) (entries : list (list Z * list Z)) : list Z :=
  LBRACKET :: sec ++ RBRACKET :: NL :: serialize entries.

(** An entry with its key put under a prefix. *)
Definition under (prefix : list Z) (kv : list Z * list Z) : list Z * list Z :=
  (prefix ++ kv.1, kv.2).

(** Text that stands for itself between quotes in a value: no newline,
    no double quote, no backslash. *)
Definition quoted_literal (q : list Z) : Prop :=
  Forall (fun c => c <> NL /\ c <> DQUOTE /\ c <> BACKSLASH) q.







(** Unix line ends for DOS ones: every carriage return that stands
    before a newline is dropped. *)
Fixpoint unix (s : list Z) : list Z :=
  match s with
  | [] => []
  | c :: s' => if (c =? CR) && (hd 0 s' =? NL) then unix s' else c :: unix s'
  end.

(** Text in which every carriage return is followed by a newline. *)
Fixpoint dos (s : list Z) : Prop :=
  match s with
  | [] => True
  | c :: s' => (c = CR -> hd 0 s' = NL) /\ dos s'
  end.

(** The cursor on the same text with Unix line ends. *)
Definition unix_cursor (cf : parser) : parser :=
  mkParser (unix (runes cf)) (linenr cf) (eof cf).

(** A run that goes the same way on the text with Unix line ends. *)
Definition unix_stable {A : Type} (m : parser -> option (A * parser)) : Prop :=
  forall cf a cf',
    dos (runes cf) -> m cf = Some (a, cf') ->
    m (unix_cursor cf) = Some (a, unix_cursor cf') /\ dos (runes cf').

Section TextShapes.
Context {U : UnicodeTables}.



End TextShapes.

(** ** Inputs of the concrete runs *)

Definition ex_unfinished_quote : list Z := runes_of "k = " ++ DQUOTE :: runes_of "x".
Definition ex_extended_eof : list Z := runes_of "[a " ++ DQUOTE :: runes_of "x".
Definition ex_extended_eof_closed : list Z :=
  runes_of "[a " ++ DQUOTE :: runes_of "x" ++ [DQUOTE].
Definition ex_extended_eof_blank : list Z := runes_of "[a ".
Definition ex_bracket_newline : list Z :=
  runes_of "[a " ++ DQUOTE :: runes_of "x" ++ [DQUOTE; NL].
Definition ex_section_escape : list Z :=
  runes_of "[a " ++ DQUOTE :: runes_of "x\ty" ++ DQUOTE :: runes_of "]" ++ NL :: runes_of "b=1".
Definition ex_extended : list Z :=
  runes_of "[foo " ++ DQUOTE :: runes_of "Bar" ++ DQUOTE :: runes_of "] baz=1".
Definition ex_sectioned : list Z := runes_of "[a]" ++ NL :: runes_of "b=1" ++ [NL].
Definition ex_quoted_blank : list Z :=
  runes_of "b = " ++ DQUOTE :: runes_of " x" ++ [DQUOTE; NL].
Definition ex_upper_key : list Z := runes_of "[foo.bar] BAZ = 1".
Definition ex_upper_section : list Z := runes_of "[Foo.Bar] baz = 1".
Definition ex_quoted_items : list quoted_item :=
  [Literal 120; Escaped LOWER_T; Escaped DQUOTE; Escaped BACKSLASH; Literal 121].
Definition ex_plain : list Z := runes_of "b=1" ++ NL :: runes_of "Key-2 = x  y # z" ++ [NL].
Definition ex_plain_entries : list (list Z * list Z) :=
  [(runes_of "Key-2", runes_of "x  y"); (runes_of "b", runes_of "1")].
Definition ex_plain_map : gmap (list Z) (list Z) :=
  <[runes_of "b" := runes_of "1"]> {[ runes_of "Key-2" := runes_of "x  y" ]}.
Definition ex_twice : list (list Z * list Z) :=
  [(runes_of "b", runes_of "1"); (runes_of "b", runes_of "2")].
Definition ex_dos : list Z :=
  runes_of "[a]" ++ [CR; NL] ++ runes_of "b = 1" ++ [CR; NL].


Arguments nextRune : simpl never.

(** * The cursor: [nextRune] *)

Lemma nextRune_nil ln e :
  nextRune (mkParser [] ln e) = (NL, mkParser [] ln true).
Proof. reflexivity. Qed.

Lemma nextRune_crlf rs ln e :
  nextRune (mkParser (CR :: NL :: rs) ln e) = (NL, mkParser rs (uint_inc ln) e).
Proof. reflexivity. Qed.

Lemma nextRune_lf rs ln e :
  nextRune (mkParser (NL :: rs) ln e) = (NL, mkParser rs (uint_inc ln) e).
Proof. reflexivity. Qed.

Lemma nextRune_cr rs ln e :
  hd 0 rs <> NL ->
  nextRune (mkParser (CR :: rs) ln e) = (CR, mkParser rs ln e).
Proof.
  intros H. unfold nextRune. cbn [runes length Nat.eqb hd Z.eqb Pos.eqb].
  destruct rs as [|c rs]; [reflexivity|]. cbn in H.
  cbn [length Nat.ltb Nat.leb andb nth runes].
  destruct (Z.eqb_spec c NL) as [->|Hc]; [lia|]. reflexivity.
Qed.

Lemma nextRune_plain c rs ln e :
  c <> NL -> c <> CR ->
  nextRune (mkParser (c :: rs) ln e) = (c, mkParser rs ln e).
Proof.
  intros H1 H2. unfold nextRune. cbn [runes length Nat.eqb hd].
  destruct (Z.eqb_spec c CR) as [->|_]; [lia|].
  destruct (Z.eqb_spec c NL) as [->|_]; [lia|]. reflexivity.
Qed.

(** The cases of [nextRune] on an input that is not exhausted, in one
    statement: what is returned and what is left. *)
Lemma nextRune_cons c rs ln e :
  nextRune (mkParser (c :: rs) ln e) =
  if (c =? CR) && (hd 0 rs =? NL)
  then (NL, mkParser (tl rs) (uint_inc ln) e)
  else (c, mkParser rs (if c =? NL then uint_inc ln else ln) e).
Proof.
  destruct (Z.eqb_spec c CR) as [->|Hcr]; cbn [andb].
  - destruct (Z.eqb_spec (hd 0 rs) NL) as [Hh|Hh].
    + destruct rs as [|c' rs]; cbn in Hh; [lia|]. subst c'. apply nextRune_crlf.
    + now apply nextRune_cr.
  - destruct (Z.eqb_spec c NL) as [->|Hnl]; [apply nextRune_lf|].
    now apply nextRune_plain.
Qed.

(** The second [len(cf.runes) == 0] test of [nextRune] (the one that would
    count a line at the end of the input) is dead code: when it is
    reached the slice still holds the rune about to be returned. *)
Lemma nextRune_second_test_dead cf :
  runes cf <> [] ->
  let c := hd 0 (runes cf) in
  let cf1 := if (c =? CR) && (1 <? length (runes cf))%nat && (nth 1 (runes cf) 0 =? NL)
             then set_runes (tl (runes cf)) cf else cf in
  (length (runes cf1) =? 0)%nat = false.
Proof.
  destruct cf as [[|c [|c' rs]] ln e]; cbn; intros H; try congruence.
  - now rewrite andb_false_r.
  - now destruct ((c =? CR) && true && (c' =? NL)).
Qed.

Lemma nextRune_length cf :
  (length (runes (nextRune cf).2) <= length (runes cf) - 1)%nat.
Proof.
  destruct cf as [[|c rs] ln e]; [rewrite nextRune_nil; cbn; lia|].
  rewrite nextRune_cons. destruct (_ && _); cbn; [|lia].
  destruct rs; cbn; lia.
Qed.

(** ** C9 and C3 *)

(** C9 (the code departs from the claim): called with the input
    exhausted, [nextRune] sets the end-of-input flag and returns a
    synthetic newline, but it leaves the line counter as it is; the
    statement that would count one more line sits behind the dead second
    test. *)
Theorem nextRune_exhausted_keeps_linenr ln e :
  nextRune (mkParser [] ln e) = (NL, mkParser [] ln true)
  /\ linenr (nextRune (mkParser [] ln e)).2 = ln
  /\ @Parse ascii_tables [] = Some (∅, 1, None).
Proof. repeat split. Qed.

(** C3, as stated, fails: a carriage return that is not followed by a
    newline is handed out unchanged, and the line counter stays. *)
Lemma nextRune_lone_cr_not_newline :
  (nextRune (mkParser (CR :: runes_of "a") 1 false)).1 = CR
  /\ (nextRune (mkParser (CR :: runes_of "a") 1 false)).1 <> NL
  /\ linenr (nextRune (mkParser (CR :: runes_of "a") 1 false)).2 = 1.
Proof. repeat split. discriminate. Qed.

(** C3, amended: [nextRune] turns the pair carriage return + newline into
    one newline and counts one line for it, exactly as for a bare
    newline; a carriage return followed by anything else (or by nothing)
    is returned as it is and counts no line.  On an input that is not
    exhausted the counter moves by one exactly when the rune returned is
    a newline. *)
Theorem nextRune_newline_normalization rs ln e :
  nextRune (mkParser (CR :: NL :: rs) ln e) = (NL, mkParser rs (uint_inc ln) e)
  /\ nextRune (mkParser (NL :: rs) ln e) = (NL, mkParser rs (uint_inc ln) e)
  /\ (hd 0 rs <> NL ->
      nextRune (mkParser (CR :: rs) ln e) = (CR, mkParser rs ln e))
  /\ (forall c,
      linenr (nextRune (mkParser (c :: rs) ln e)).2 =
      if (nextRune (mkParser (c :: rs) ln e)).1 =? NL then uint_inc ln else ln).
Proof.
  split; [apply nextRune_crlf|]. split; [apply nextRune_lf|].
  split; [apply nextRune_cr|]. intros c. rewrite nextRune_cons.
  destruct ((c =? CR) && _) eqn:E; [reflexivity|]. cbn [fst snd linenr]. reflexivity.
Qed.

Lemma nextRune_newline_normalization_witness :
  hd 0 (runes_of "a") <> NL
  /\ nextRune (mkParser (CR :: runes_of "a") 7 false)
     = (CR, mkParser (runes_of "a") 7 false).
Proof.
  split; [discriminate|].
  apply (nextRune_newline_normalization (runes_of "a") 7 false). discriminate.
Defined.

(** * Termination

    Every loop either reads a rune that is there, and then the remaining
    input is shorter, or it sees the end of the input and returns (at the
    latest in the following iteration).  So fuel that exceeds the length of
    the remaining input by a small constant is never exhausted, and more
    fuel never changes a result. *)

Ltac next_rune c cf' E :=
  match goal with
  | |- context [nextRune ?cf] => destruct (nextRune cf) as [c cf'] eqn:E
  end.

Ltac returned := eexists _, _; split; [reflexivity|]; cbn; try lia.

Ltac more_fuel fuel' :=
  intros; destruct fuel' as [|fuel']; [lia|];
  match goal with H : _ = Some _ |- _ => cbn in H |- *; revert H end;
  repeat (let E := fresh "E" in
          match goal with
          | |- context [nextRune ?cf] => destruct (nextRune cf) as [? ?] eqn:E
          | |- (if ?b then _ else _) = _ -> _ => destruct b eqn:E
          | |- match ?x with _ => _ end = _ -> _ => destruct x eqn:E
          end);
  try discriminate; try (intros H; exact H).

Section Termination.
Context {U : UnicodeTables}.

Lemma nextRune_inv cf c cf' :
  nextRune cf = (c, cf') ->
  (runes cf = [] /\ c = NL /\ cf' = set_eof true cf)
  \/ (runes cf <> [] /\ (len cf' < len cf)%nat /\ eof cf' = eof cf).
Proof.
  destruct cf as [[|c0 rs] ln e]; [rewrite nextRune_nil|rewrite nextRune_cons].
  - intros [= <- <-]. now left.
  - intros H. right. split; [discriminate|].
    destruct (_ && _); injection H as <- <-; cbn; [|split; [lia|reflexivity]].
    split; [destruct rs; cbn; lia|reflexivity].
Qed.

Lemma nextRune_le cf c cf' :
  nextRune cf = (c, cf') -> (len cf' <= len cf)%nat.
Proof.
  intros H. destruct (nextRune_inv _ _ _ H) as [(E & _ & ->)|(_ & ? & _)]; [|lia].
  cbn. lia.
Qed.

Lemma getExtendedSectionKey_space_total fuel : forall c cf,
  ((if (c =? NL)%Z then 1 else len cf + 2) <= fuel)%nat ->
  exists r cf', getExtendedSectionKey_space fuel c cf = Some (r, cf')
                /\ (len cf' <= len cf)%nat.
Proof.
  induction fuel as [|fuel IH]; intros c cf Hf.
  - destruct (c =? NL); lia.
  - cbn [getExtendedSectionKey_space]. destruct (c =? NL) eqn:Ec; [returned|].
    next_rune c' cf' En. destruct (negb (isspace c')).
    { returned. apply nextRune_le in En. lia. }
    destruct (IH c' cf') as (r & cf'' & -> & Hl).
    { destruct (nextRune_inv _ _ _ En) as [(? & -> & ->)|(? & ? & ?)]; cbn; [lia|].
      destruct (c' =? NL); lia. }
    returned. apply nextRune_le in En. lia.
Qed.

Lemma getExtendedSectionKey_quoted_total fuel : forall name cf,
  (len cf + 1 <= fuel)%nat ->
  exists r cf', getExtendedSectionKey_quoted fuel name cf = Some (r, cf')
                /\ (len cf' <= len cf)%nat.
Proof.
  induction fuel as [|fuel IH]; intros name cf Hf; [lia|].
  cbn [getExtendedSectionKey_quoted]. next_rune c cf1 En.
  destruct (nextRune_inv _ _ _ En) as [(? & -> & ->)|(? & ? & ?)]; [returned|].
  destruct (c =? NL); [returned|]. destruct (c =? DQUOTE); [returned|].
  destruct (c =? BACKSLASH).
  - next_rune c2 cf2 En2. pose proof (nextRune_le _ _ _ En2).
    destruct (c2 =? NL); [returned|].
    destruct (IH (name ++ [c2]) cf2) as (r & cf' & -> & Hl); [lia|]. returned.
  - destruct (IH (name ++ [c]) cf1) as (r & cf' & -> & Hl); [lia|]. returned.
Qed.

Lemma getExtendedSectionKey_total fuel name c cf :
  (len cf + 2 <= fuel)%nat ->
  exists r cf', getExtendedSectionKey fuel name c cf = Some (r, cf')
                /\ (len cf' <= len cf)%nat.
Proof.
  intros Hf. unfold getExtendedSectionKey.
  destruct (getExtendedSectionKey_space_total fuel c cf) as (r & cf1 & -> & H1).
  { destruct (c =? NL); lia. }
  destruct r as [c1|e]; [|returned].
  destruct (negb (c1 =? DQUOTE)); [returned|].
  destruct (getExtendedSectionKey_quoted_total fuel (name ++ [DOT]) cf1)
    as (r & cf2 & -> & H2); [lia|].
  destruct r as [name'|e]; [|returned].
  next_rune c3 cf3 En. apply nextRune_le in En.
  destruct (negb (c3 =? RBRACKET)); returned.
Qed.

Lemma getSectionKey_loop_total fuel : forall name cf,
  (len cf + 2 <= fuel)%nat ->
  exists r cf', getSectionKey_loop fuel name cf = Some (r, cf')
                /\ (len cf' <= len cf)%nat.
Proof.
  induction fuel as [|fuel IH]; intros name cf Hf; [lia|].
  cbn [getSectionKey_loop]. next_rune c cf1 En.
  destruct (nextRune_inv _ _ _ En) as [(? & -> & ->)|(? & ? & ?)]; [returned|].
  destruct (eof cf1); [returned|]. destruct (c =? RBRACKET); [returned|].
  destruct (isspace c).
  - destruct (getExtendedSectionKey_total fuel name c cf1) as (r & cf' & -> & Hl);
      [lia|]. returned.
  - destruct (negb (iskeychar c) && negb (c =? DOT)); [returned|].
    destruct (IH (name ++ [lower c]) cf1) as (r & cf' & -> & Hl); [lia|]. returned.
Qed.

Lemma parseValue_loop_total fuel : forall quote comment space value cf,
  (len cf + 1 <= fuel)%nat ->
  exists r cf', parseValue_loop fuel quote comment space value cf = Some (r, cf')
                /\ (len cf' <= len cf)%nat.
Proof.
  induction fuel as [|fuel IH]; intros quote comment space value cf Hf; [lia|].
  cbn [parseValue_loop]. next_rune c cf1 En.
  destruct (nextRune_inv _ _ _ En) as [(? & -> & ->)|(? & ? & ?)].
  { cbn [Z.eqb Pos.eqb]. destruct quote; returned. }
  assert (Hrec : forall q cm sp v cf2, (len cf2 <= len cf1)%nat ->
    exists r cf', parseValue_loop fuel q cm sp v cf2 = Some (r, cf')
                  /\ (len cf' <= len cf)%nat).
  { intros q cm sp v cf2 Hle. destruct (IH q cm sp v cf2) as (r & cf' & -> & Hl);
      [lia|]. returned. }
  destruct (c =? NL); [destruct quote; returned|].
  destruct comment; [now apply Hrec|].
  destruct (isspace c && negb quote); [now apply Hrec|].
  destruct (negb quote && _); [now apply Hrec|].
  destruct (c =? BACKSLASH).
  - next_rune c2 cf2 En2. apply nextRune_le in En2.
    destruct (c2 =? NL); [now apply Hrec|].
    destruct (c2 =? LOWER_T); [now apply Hrec|].
    destruct (c2 =? LOWER_B); [now apply Hrec|].
    destruct (c2 =? LOWER_N); [now apply Hrec|]. returned.
  - destruct (c =? DQUOTE); now apply Hrec.
Qed.

Lemma getValue_name_total fuel : forall name cf,
  (len cf + 1 <= fuel)%nat ->
  exists r cf', getValue_name fuel name cf = Some (r, cf')
                /\ (len cf' <= len cf)%nat.
Proof.
  induction fuel as [|fuel IH]; intros name cf Hf; [lia|].
  cbn [getValue_name]. next_rune c cf1 En.
  destruct (nextRune_inv _ _ _ En) as [(? & -> & ->)|(? & ? & ?)]; [returned|].
  destruct (eof cf1); [returned|]. destruct (negb (iskeychar c)); [returned|].
  destruct (IH (name ++ [lower c]) cf1) as (r & cf' & -> & Hl); [lia|]. returned.
Qed.

Lemma getValue_blank_total fuel : forall c cf,
  ((if ((c =? SP) || (c =? TAB))%Z then len cf + 2 else 1) <= fuel)%nat ->
  exists r cf', getValue_blank fuel c cf = Some (r, cf')
                /\ (len cf' <= len cf)%nat.
Proof.
  induction fuel as [|fuel IH]; intros c cf Hf.
  - destruct (_ || _); lia.
  - cbn [getValue_blank]. destruct (_ || _); [|returned].
    next_rune c' cf' En.
    destruct (IH c' cf') as (r & cf'' & -> & Hl).
    { destruct (nextRune_inv _ _ _ En) as [(? & -> & ->)|(? & ? & ?)]; cbn; [lia|].
      destruct (_ || _); lia. }
    returned. apply nextRune_le in En. lia.
Qed.

Lemma getValue_total fuel name cf :
  (len cf + 2 <= fuel)%nat ->
  exists r cf', getValue fuel name cf = Some (r, cf') /\ (len cf' <= len cf)%nat.
Proof.
  intros Hf. unfold getValue.
  destruct (getValue_name_total fuel name cf) as ([c name'] & cf1 & -> & H1); [lia|].
  destruct (getValue_blank_total fuel c cf1) as (c2 & cf2 & -> & H2).
  { destruct (_ || _); lia. }
  destruct (negb (c2 =? NL)); [|returned].
  destruct (negb (c2 =? EQUALS)); [returned|].
  destruct (parseValue_loop_total fuel false false O [] cf2)
    as ([v [e|]] & cf3 & E & H3); [lia| |]; unfold parseValue; rewrite E; returned.
Qed.

Lemma parse_loop_total fuel : forall comment cfg name cf,
  (len cf + 2 <= fuel)%nat ->
  exists r cf', parse_loop fuel comment cfg name cf = Some (r, cf').
Proof.
  induction fuel as [|fuel IH]; intros comment cfg name cf Hf; [lia|].
  cbn [parse_loop]. next_rune c cf1 En.
  destruct (nextRune_inv _ _ _ En) as [(? & -> & ->)|(? & ? & ?)].
  { cbn. eauto. }
  destruct (c =? NL). { destruct (eof cf1); [eauto|]. apply IH. lia. }
  destruct (comment || isspace c); [apply IH; lia|].
  destruct (_ || _); [apply IH; lia|].
  destruct (c =? LBRACKET).
  - destruct (getSectionKey_loop_total fuel [] cf1) as ([nm [e|]] & cf2 & E & H2);
      [lia| |]; unfold getSectionKey; rewrite E; [eauto|]. apply IH. lia.
  - destruct (negb (isalpha c)); [eauto|].
    destruct (getValue_total fuel (name ++ [c]) cf1) as ([[k v] [e|]] & cf2 & -> & H2);
      [lia| |]; [eauto|]. apply IH. lia.
Qed.

(** More fuel never changes a result. *)

Lemma getExtendedSectionKey_space_mono fuel : forall fuel' c cf r,
  getExtendedSectionKey_space fuel c cf = Some r -> (fuel <= fuel')%nat ->
  getExtendedSectionKey_space fuel' c cf = Some r.
Proof.
  induction fuel as [|fuel IH]; [discriminate|]. more_fuel fuel'.
  intros H. apply IH; [exact H|lia].
Qed.

Lemma getExtendedSectionKey_quoted_mono fuel : forall fuel' name cf r,
  getExtendedSectionKey_quoted fuel name cf = Some r -> (fuel <= fuel')%nat ->
  getExtendedSectionKey_quoted fuel' name cf = Some r.
Proof.
  induction fuel as [|fuel IH]; [discriminate|]. more_fuel fuel'.
  all: intros H; apply IH; [exact H|lia].
Qed.

Lemma getExtendedSectionKey_mono fuel fuel' name c cf r :
  getExtendedSectionKey fuel name c cf = Some r -> (fuel <= fuel')%nat ->
  getExtendedSectionKey fuel' name c cf = Some r.
Proof.
  unfold getExtendedSectionKey. intros H Hle.
  destruct (getExtendedSectionKey_space fuel c cf) as [[x cf1]|] eqn:E1; [|discriminate].
  rewrite (getExtendedSectionKey_space_mono _ _ _ _ _ E1 Hle).
  destruct x as [c1|e]; [|exact H]. destruct (negb (c1 =? DQUOTE)); [exact H|].
  destruct (getExtendedSectionKey_quoted fuel (name ++ [DOT]) cf1)
    as [[x cf2]|] eqn:E2; [|discriminate].
  now rewrite (getExtendedSectionKey_quoted_mono _ _ _ _ _ E2 Hle).
Qed.

Lemma getSectionKey_loop_mono fuel : forall fuel' name cf r,
  getSectionKey_loop fuel name cf = Some r -> (fuel <= fuel')%nat ->
  getSectionKey_loop fuel' name cf = Some r.
Proof.
  induction fuel as [|fuel IH]; [discriminate|]. more_fuel fuel'.
  - intros H. apply getExtendedSectionKey_mono with fuel; [exact H|lia].
  - intros H. apply IH; [exact H|lia].
Qed.

Lemma parseValue_loop_mono fuel : forall fuel' quote comment space value cf r,
  parseValue_loop fuel quote comment space value cf = Some r -> (fuel <= fuel')%nat ->
  parseValue_loop fuel' quote comment space value cf = Some r.
Proof.
  induction fuel as [|fuel IH]; [discriminate|]. more_fuel fuel'.
  all: intros H; apply IH; [exact H|lia].
Qed.

Lemma getValue_name_mono fuel : forall fuel' name cf r,
  getValue_name fuel name cf = Some r -> (fuel <= fuel')%nat ->
  getValue_name fuel' name cf = Some r.
Proof.
  induction fuel as [|fuel IH]; [discriminate|]. more_fuel fuel'.
  intros H. apply IH; [exact H|lia].
Qed.

Lemma getValue_blank_mono fuel : forall fuel' c cf r,
  getValue_blank fuel c cf = Some r -> (fuel <= fuel')%nat ->
  getValue_blank fuel' c cf = Some r.
Proof.
  induction fuel as [|fuel IH]; [discriminate|]. more_fuel fuel'.
  intros H. apply IH; [exact H|lia].
Qed.

Lemma getValue_mono fuel fuel' name cf r :
  getValue fuel name cf = Some r -> (fuel <= fuel')%nat ->
  getValue fuel' name cf = Some r.
Proof.
  unfold getValue, parseValue. intros H Hle.
  destruct (getValue_name fuel name cf) as [[[c nm] cf1]|] eqn:E1; [|discriminate].
  rewrite (getValue_name_mono _ _ _ _ _ E1 Hle).
  destruct (getValue_blank fuel c cf1) as [[c2 cf2]|] eqn:E2; [|discriminate].
  rewrite (getValue_blank_mono _ _ _ _ _ E2 Hle).
  destruct (negb (c2 =? NL)); [|exact H]. destruct (negb (c2 =? EQUALS)); [exact H|].
  destruct (parseValue_loop fuel false false 0 [] cf2) as [x|] eqn:E3; [|discriminate].
  now rewrite (parseValue_loop_mono _ _ _ _ _ _ _ _ E3 Hle).
Qed.

Lemma parse_loop_mono fuel : forall fuel' comment cfg name cf r,
  parse_loop fuel comment cfg name cf = Some r -> (fuel <= fuel')%nat ->
  parse_loop fuel' comment cfg name cf = Some r.
Proof.
  induction fuel as [|fuel IH]; [discriminate|].
  intros fuel' comment cfg name cf r H Hle. destruct fuel' as [|fuel']; [lia|].
  assert (Hle' : (fuel <= fuel')%nat) by lia.
  cbn [parse_loop] in H |- *. destruct (nextRune cf) as [c cf1].
  destruct (c =? NL). { destruct (eof cf1); [exact H|]. now apply IH. }
  destruct (comment || isspace c); [now apply IH|].
  destruct (_ || _); [now apply IH|].
  destruct (c =? LBRACKET).
  - unfold getSectionKey in *.
    destruct (getSectionKey_loop fuel [] cf1) as [[[nm err] cf2]|] eqn:E; [|discriminate].
    rewrite (getSectionKey_loop_mono _ _ _ _ _ E Hle').
    destruct err; [exact H|]. now apply IH.
  - destruct (negb (isalpha c)); [exact H|].
    destruct (getValue fuel (name ++ [c]) cf1) as [[[[k v] err] cf2]|] eqn:E;
      [|discriminate].
    rewrite (getValue_mono _ _ _ _ _ E Hle').
    destruct err; [exact H|]. now apply IH.
Qed.

(** [parse] with any fuel beyond [len cf + 2] is [parse] with [fuel_for]. *)
Lemma parse_fuel_for fuel cf :
  (len cf + 2 <= fuel)%nat -> parse fuel cf = parse (fuel_for cf) cf.
Proof.
  intros Hf. unfold parse.
  destruct (parse_loop_total (len cf + 2) false ∅ [] cf) as (r & cf' & E); [lia|].
  rewrite (parse_loop_mono _ fuel _ _ _ _ _ E Hf).
  symmetry. apply (parse_loop_mono _ _ _ _ _ _ _ E). unfold fuel_for. lia.
Qed.

(** C10: [Parse] returns on every input, with a mapping, a line number
    and either no error or one of the error kinds; any fuel from the
    length of the input plus two on gives that same result, and each
    sub-parser returns too, leaving no more input than it was given.
    The measure behind it: a call of [nextRune] either takes at least one
    rune off the remaining input, or finds the input exhausted, raises
    the end-of-input flag and hands out the newline on which every loop
    returns. *)
Theorem Parse_total bytes :
  (exists cfg ln err, Parse bytes = Some (cfg, ln, err))
  /\ (forall cf c cf', nextRune cf = (c, cf') ->
      (runes cf = [] /\ c = NL /\ eof cf' = true) \/ (len cf' < len cf)%nat)
  /\ (forall fuel, (length bytes + 2 <= fuel)%nat ->
      parse fuel (mkParser bytes 1 false)
      = parse (fuel_for (mkParser bytes 1 false)) (mkParser bytes 1 false))
  /\ (forall fuel cf, (len cf + 2 <= fuel)%nat ->
      (exists r cf', getSectionKey fuel cf = Some (r, cf') /\ (len cf' <= len cf)%nat)
      /\ (forall name, exists r cf',
            getValue fuel name cf = Some (r, cf') /\ (len cf' <= len cf)%nat)
      /\ (exists r cf', parseValue fuel cf = Some (r, cf') /\ (len cf' <= len cf)%nat)
      /\ (forall comment cfg name, exists r cf',
            parse_loop fuel comment cfg name cf = Some (r, cf'))).
Proof.
  split; [|split; [|split]].
  - unfold Parse, parse.
    destruct (parse_loop_total (fuel_for (mkParser bytes 1 false)) false ∅ []
                (mkParser bytes 1 false)) as ([cfg err] & cf' & ->).
    { unfold fuel_for. lia. }
    eauto.
  - intros cf c cf' En.
    destruct (nextRune_inv _ _ _ En) as [(? & ? & ->)|(_ & ? & _)]; [left|right]; auto.
  - intros fuel Hf. now apply parse_fuel_for.
  - intros fuel cf Hf. repeat split.
    + now apply getSectionKey_loop_total.
    + intros name. now apply getValue_total.
    + apply parseValue_loop_total. lia.
    + intros. now apply parse_loop_total.
Qed.

End Termination.

Lemma Parse_total_witness :
  (length (runes_of "a=1") + 2 <= 5)%nat
  /\ @parse ascii_tables 5 (mkParser (runes_of "a=1") 1 false)
     = @parse ascii_tables (fuel_for (mkParser (runes_of "a=1") 1 false))
         (mkParser (runes_of "a=1") 1 false).
Proof.
  split; [cbn; lia|].
  apply (proj1 (proj2 (proj2 (@Parse_total ascii_tables (runes_of "a=1"))))). cbn. lia.
Defined.

(** * Concrete runs *)

(** C2 (the code departs from the claim): the line reported with an
    error is not always the line of the fault.  An error raised on the
    synthetic newline of the end of the input takes one off a counter that
    [nextRune] never advanced there: an unfinished quote, or an unfinished
    extended header, on line 1 is reported on line 0.  And a newline right
    after the closing quote of an extended header is counted but not taken
    back: the fault on line 1 is reported on line 2.  The same unfinished
    quote followed by a real newline is reported on line 1. *)
Theorem Parse_fault_line_off_by_one :
  @Parse ascii_tables ex_unfinished_quote = Some (∅, 0, Some ErrUnfinishedQuote)
  /\ @Parse ascii_tables ex_extended_eof = Some (∅, 0, Some ErrSectionNewLine)
  /\ @Parse ascii_tables ex_bracket_newline = Some (∅, 2, Some ErrMissingClosingBracket)
  /\ @Parse ascii_tables (ex_unfinished_quote ++ [NL]) = Some (∅, 1, Some ErrUnfinishedQuote).
Proof. repeat split; vm_compute; reflexivity. Qed.

(** C7 (the code departs from the claim): section components and the
    quoted literal behave as claimed, but the first rune of a key name is
    appended as it was typed; only the runes after it go through [lower].
    So an upper-case key name keeps its initial capital. *)
Theorem Parse_key_case :
  @Parse ascii_tables ex_upper_section
    = Some ({[ runes_of "foo.bar.baz" := runes_of "1" ]}, 1, None)
  /\ @Parse ascii_tables ex_extended
    = Some ({[ runes_of "foo.Bar.baz" := runes_of "1" ]}, 1, None)
  /\ @Parse ascii_tables ex_upper_key
    = Some ({[ runes_of "foo.bar.Baz" := runes_of "1" ]}, 1, None)
  /\ runes_of "foo.bar.Baz" <> runes_of "foo.bar.baz".
Proof. repeat split; try (vm_compute; reflexivity). discriminate. Qed.

(** C4, as stated, fails: when the input ends inside an extended header
    the error is not [ErrUnexpectedEOF]. *)
Lemma Parse_extended_header_eof :
  @Parse ascii_tables ex_extended_eof = Some (∅, 0, Some ErrSectionNewLine)
  /\ @Parse ascii_tables ex_extended_eof_blank = Some (∅, 0, Some ErrSectionNewLine)
  /\ @Parse ascii_tables ex_extended_eof_closed
     = Some (∅, 1, Some ErrMissingClosingBracket).
Proof. repeat split; vm_compute; reflexivity. Qed.


(** C5, as stated, fails: backslash + [t] inside the quoted part of a
    header is no error; the [t] is taken as it is. *)
Lemma Parse_section_escape_accepted :
  @Parse ascii_tables ex_section_escape
  = Some ({[ runes_of "a.xty.b" := runes_of "1" ]}, 2, None).
Proof. vm_compute. reflexivity. Qed.

(** C1, as stated, fails: a key under a section is serialized with its
    dots, and a dot is no key character, so the serialized line does not
    parse; and a value that owes a leading blank to quotes loses it. *)
Lemma Parse_serialize_not_inverse :
  @Parse ascii_tables ex_sectioned
    = Some ({[ runes_of "a.b" := runes_of "1" ]}, 3, None)
  /\ @Parse ascii_tables (serialize (map_to_list {[ runes_of "a.b" := runes_of "1" ]}))
    = Some (∅, 1, Some ErrInvalidKeyChar)
  /\ @Parse ascii_tables ex_quoted_blank
    = Some ({[ runes_of "b" := runes_of " x" ]}, 2, None)
  /\ @Parse ascii_tables (serialize (map_to_list {[ runes_of "b" := runes_of " x" ]}))
    = Some ({[ runes_of "b" := runes_of "x" ]}, 2, None).
Proof. repeat split; vm_compute; reflexivity. Qed.

(** * Section headers that meet the end of the input *)

Section SectionHeaders.
Context {U : UnicodeTables}.

Lemma isspace_NL : isspace NL = true.
Proof. unfold isspace. now rewrite IsSpace_ascii. Qed.

Lemma isspace_CR : isspace CR = true.
Proof. unfold isspace. now rewrite IsSpace_ascii. Qed.

(** What [nextRune] took from the input, case by case. *)
Lemma nextRune_cases cf c cf1 :
  nextRune cf = (c, cf1) ->
  (runes cf = [] /\ c = NL /\ cf1 = mkParser [] (linenr cf) true)
  \/ (runes cf = CR :: NL :: runes cf1 /\ c = NL
      /\ cf1 = mkParser (runes cf1) (uint_inc (linenr cf)) (eof cf))
  \/ (runes cf = c :: runes cf1 /\ (c = CR -> hd 0 (runes cf1) <> NL)
      /\ cf1 = mkParser (runes cf1) (if c =? NL then uint_inc (linenr cf) else linenr cf)
                 (eof cf)).
Proof.
  destruct cf as [[|c0 rs] ln e]; [rewrite nextRune_nil|rewrite nextRune_cons].
  - intros [= <- <-]. now left.
  - destruct (Z.eqb_spec c0 CR) as [->|Hcr]; cbn [andb].
    + destruct (Z.eqb_spec (hd 0 rs) NL) as [Hh|Hh]; intros [= <- <-].
      * right; left. destruct rs as [|c' rs]; cbn in Hh; [lia|]. now subst c'.
      * right; right. cbn. auto.
    + intros [= <- <-]. right; right. cbn. repeat split. intros ->. lia.
Qed.

Lemma getExtendedSectionKey_space_eof fuel : forall c cf x cf',
  getExtendedSectionKey_space fuel c cf = Some (x, cf') ->
  (eof cf = true -> c = NL) -> eof cf' = true ->
  x = Return ErrSectionNewLine.
Proof.
  induction fuel as [|fuel IH]; intros c cf x cf'; [discriminate|].
  cbn [getExtendedSectionKey_space]. destruct (Z.eqb_spec c NL) as [->|Hc].
  { now intros [= <- <-]. }
  destruct (nextRune cf) as [c1 cf1] eqn:En. intros H He He'.
  assert (eof cf = false) as Hf by (destruct (eof cf); [now specialize (He eq_refl)|easy]).
  destruct (nextRune_inv _ _ _ En) as [(_ & -> & ->)|(_ & _ & Heq)].
  - rewrite isspace_NL in H. cbn [negb] in H. now apply IH in H.
  - destruct (negb (isspace c1)).
    + injection H as <- <-. congruence.
    + apply IH in H; [assumption| |assumption]. congruence.
Qed.

Lemma getExtendedSectionKey_quoted_eof fuel : forall name cf x cf',
  getExtendedSectionKey_quoted fuel name cf = Some (x, cf') ->
  eof cf = false -> eof cf' = true ->
  x = Return ErrSectionNewLine.
Proof.
  induction fuel as [|fuel IH]; intros name cf x cf'; [discriminate|].
  cbn [getExtendedSectionKey_quoted].
  destruct (nextRune cf) as [c1 cf1] eqn:En. intros H He He'.
  destruct (Z.eqb_spec c1 NL) as [_|Hc1]; [now injection H as <- <-|].
  destruct (nextRune_inv _ _ _ En) as [(_ & ? & _)|(_ & _ & Heq)]; [congruence|].
  destruct (c1 =? DQUOTE); [injection H as <- <-; congruence|].
  destruct (c1 =? BACKSLASH).
  - destruct (nextRune cf1) as [c2 cf2] eqn:En2.
    destruct (Z.eqb_spec c2 NL) as [_|Hc2]; [now injection H as <- <-|].
    destruct (nextRune_inv _ _ _ En2) as [(_ & ? & _)|(_ & _ & Heq2)]; [congruence|].
    apply IH in H; [assumption|congruence|assumption].
  - apply IH in H; [assumption|congruence|assumption].
Qed.

Lemma getExtendedSectionKey_eof fuel name c cf r cf' :
  getExtendedSectionKey fuel name c cf = Some (r, cf') ->
  eof cf = false -> eof cf' = true ->
  r = ([], Some ErrSectionNewLine) \/ r = ([], Some ErrMissingClosingBracket).
Proof.
  unfold getExtendedSectionKey. intros H He He'.
  destruct (getExtendedSectionKey_space fuel c cf) as [[x cf1]|] eqn:E1; [|discriminate].
  destruct x as [c1|e].
  - assert (eof cf1 = false) as He1.
    { destruct (eof cf1) eqn:E; [|reflexivity].
      apply getExtendedSectionKey_space_eof in E1; [discriminate|congruence|assumption]. }
    destruct (negb (c1 =? DQUOTE)); [injection H as <- <-; congruence|].
    destruct (getExtendedSectionKey_quoted fuel (name ++ [DOT]) cf1)
      as [[x cf2]|] eqn:E2; [|discriminate].
    destruct x as [name'|e].
    + assert (eof cf2 = false) as He2.
      { destruct (eof cf2) eqn:E; [|reflexivity].
        apply getExtendedSectionKey_quoted_eof in E2; [discriminate|assumption..]. }
      destruct (nextRune cf2) as [c3 cf3] eqn:En.
      destruct (negb (c3 =? RBRACKET)) eqn:Eb; injection H as <- <-; [now right|].
      destruct (nextRune_inv _ _ _ En) as [(_ & -> & ->)|(_ & _ & Heq)];
        [discriminate|congruence].
    + injection H as <- <-.
      apply getExtendedSectionKey_quoted_eof in E2; [|assumption..].
      injection E2 as ->. now left.
  - injection H as <- <-.
    apply getExtendedSectionKey_space_eof in E1; [|congruence|assumption].
    injection E1 as ->. now left.
Qed.

Lemma nextRune_space_exists cf c cf1 :
  nextRune cf = (c, cf1) -> runes cf <> [] -> isspace c = true ->
  Exists (fun c => isspace c = true) (runes cf).
Proof.
  intros En Hne Hs.
  destruct (nextRune_cases _ _ _ En) as [(? & _)|[(-> & _)|(-> & _)]]; [easy| |].
  - apply Exists_cons_hd, isspace_CR.
  - now apply Exists_cons_hd.
Qed.

Lemma getSectionKey_loop_eof fuel : forall name cf r cf',
  getSectionKey_loop fuel name cf = Some (r, cf') ->
  eof cf = false -> eof cf' = true ->
  (Forall (fun c => isspace c = false) (runes cf) -> r = ([], Some ErrUnexpectedEOF))
  /\ (Exists (fun c => isspace c = true) (runes cf) ->
      r = ([], Some ErrSectionNewLine) \/ r = ([], Some ErrMissingClosingBracket)).
Proof.
  induction fuel as [|fuel IH]; intros name cf r cf'; [discriminate|].
  cbn [getSectionKey_loop].
  destruct (nextRune cf) as [c1 cf1] eqn:En. intros H He He'.
  destruct (nextRune_inv _ _ _ En) as [(Hnil & -> & ->)|(Hne & _ & Heq)].
  { cbn in H. injection H as <- <-. split; [easy|]. rewrite Hnil. intros HE.
    now apply Exists_nil in HE. }
  rewrite Heq, He in H.
  destruct (c1 =? RBRACKET); [injection H as <- <-; congruence|].
  destruct (isspace c1) eqn:Es.
  - apply getExtendedSectionKey_eof in H; [|congruence|assumption].
    split; [|easy]. intros HF.
    pose proof (nextRune_space_exists _ _ _ En Hne Es) as HE.
    apply Exists_exists in HE as (x & Hx & Hsx).
    rewrite Forall_forall in HF. apply HF in Hx. congruence.
  - destruct (negb (iskeychar c1) && negb (c1 =? DOT));
      [injection H as <- <-; congruence|].
    apply IH in H as [H1 H2]; [|congruence|assumption].
    destruct (nextRune_cases _ _ _ En) as [(? & _)|[(_ & -> & _)|(Hr & _)]];
      [easy|now rewrite isspace_NL in Es|].
    rewrite Hr. split.
    + intros HF. apply H1. now apply Forall_cons in HF as [_ HF].
    + intros HE. apply H2. apply Exists_cons in HE as [HE|HE]; [congruence|easy].
Qed.

Lemma nextRune_nonspace c rs ln e :
  isspace c = false ->
  nextRune (mkParser (c :: rs) ln e) = (c, mkParser rs ln e).
Proof.
  intros Hs. apply nextRune_plain; intros ->.
  - now rewrite isspace_NL in Hs.
  - now rewrite isspace_CR in Hs.
Qed.

Lemma getSectionKey_loop_plain_eof body : forall fuel name ln,
  Forall section_rune body -> (length body < fuel)%nat ->
  getSectionKey_loop fuel name (mkParser body ln false)
  = Some (([], Some ErrUnexpectedEOF), mkParser [] ln true).
Proof.
  induction body as [|c body IH]; intros fuel name ln HF Hf;
    (destruct fuel as [|fuel]; [cbn in Hf; lia|]); cbn [getSectionKey_loop].
  - now rewrite nextRune_nil.
  - apply Forall_cons in HF as [(Hs & Hb & Hk) HF].
    rewrite nextRune_nonspace by assumption. cbn [eof].
    destruct (Z.eqb_spec c RBRACKET) as [|_]; [easy|]. rewrite Hs.
    replace (negb (iskeychar c) && negb (c =? DOT)) with false.
    + apply IH; [assumption|cbn in Hf; lia].
    + destruct Hk as [->| ->]; [reflexivity|]. now rewrite andb_false_r.
Qed.

End SectionHeaders.

(** * Escapes in the quoted part of an extended header *)

Section SectionEscapes.
Context {U : UnicodeTables}.

Lemma getExtendedSectionKey_space_error fuel : forall c cf e cf',
  getExtendedSectionKey_space fuel c cf = Some (Return e, cf') ->
  e = ErrSectionNewLine.
Proof.
  induction fuel as [|fuel IH]; intros c cf e cf'; [discriminate|].
  cbn [getExtendedSectionKey_space]. destruct (c =? NL); [now intros [= <- _]|].
  destruct (nextRune cf) as [c1 cf1]. destruct (negb (isspace c1)); [discriminate|].
  apply IH.
Qed.

Lemma getExtendedSectionKey_quoted_error fuel : forall name cf e cf',
  getExtendedSectionKey_quoted fuel name cf = Some (Return e, cf') ->
  e = ErrSectionNewLine.
Proof.
  induction fuel as [|fuel IH]; intros name cf e cf'; [discriminate|].
  cbn [getExtendedSectionKey_quoted]. destruct (nextRune cf) as [c1 cf1].
  destruct (c1 =? NL); [now intros [= <- _]|].
  destruct (c1 =? DQUOTE); [discriminate|].
  destruct (c1 =? BACKSLASH); [|apply IH].
  destruct (nextRune cf1) as [c2 cf2].
  destruct (c2 =? NL); [now intros [= <- _]|apply IH].
Qed.

Lemma getSectionKey_loop_no_escape_error fuel : forall name cf r cf',
  getSectionKey_loop fuel name cf = Some (r, cf') ->
  r.2 <> Some ErrInvalidEscapeSequence.
Proof.
  induction fuel as [|fuel IH]; intros name cf r cf'; [discriminate|].
  cbn [getSectionKey_loop]. destruct (nextRune cf) as [c1 cf1].
  destruct (eof cf1); [now intros [= <- _]|].
  destruct (c1 =? RBRACKET); [now intros [= <- _]|].
  destruct (isspace c1).
  - unfold getExtendedSectionKey.
    destruct (getExtendedSectionKey_space fuel c1 cf1) as [[[c2|e] cf2]|] eqn:E1;
      [|apply getExtendedSectionKey_space_error in E1 as ->; now intros [= <- _]
       |discriminate].
    destruct (negb (c2 =? DQUOTE)); [now intros [= <- _]|].
    destruct (getExtendedSectionKey_quoted fuel (name ++ [DOT]) cf2)
      as [[[nm|e] cf3]|] eqn:E2;
      [|apply getExtendedSectionKey_quoted_error in E2 as ->; now intros [= <- _]
       |discriminate].
    destruct (nextRune cf3) as [c3 cf4].
    destruct (negb (c3 =? RBRACKET)); now intros [= <- _].
  - destruct (negb (iskeychar c1) && negb (c1 =? DOT)); [now intros [= <- _]|apply IH].
Qed.

Lemma getExtendedSectionKey_quoted_escape fuel name c rs ln e :
  c <> NL -> (c = CR -> hd 0 rs <> NL) ->
  getExtendedSectionKey_quoted (S fuel) name (mkParser (BACKSLASH :: c :: rs) ln e)
  = getExtendedSectionKey_quoted fuel (name ++ [c]) (mkParser rs ln e).
Proof.
  intros Hnl Hcr. cbn [getExtendedSectionKey_quoted].
  rewrite nextRune_plain by lia. cbn [Z.eqb Pos.eqb].
  rewrite nextRune_cons.
  destruct (Z.eqb_spec c CR) as [->|_]; cbn [andb].
  - destruct (Z.eqb_spec (hd 0 rs) NL) as [H|_]; [now apply Hcr in H|reflexivity].
  - destruct (Z.eqb_spec c NL) as [|_]; [easy|reflexivity].
Qed.

Lemma getExtendedSectionKey_quoted_items items : forall fuel name rest ln e,
  Forall quoted_ok items -> (length items < fuel)%nat ->
  getExtendedSectionKey_quoted fuel name
    (mkParser (flat_map quoted_text items ++ DQUOTE :: rest) ln e)
  = Some (Break (name ++ map quoted_rune items), mkParser rest ln e).
Proof.
  induction items as [|i items IH]; intros fuel name rest ln e HF Hf;
    (destruct fuel as [|fuel]; [cbn in Hf; lia|]).
  - cbn [flat_map app getExtendedSectionKey_quoted map].
    rewrite nextRune_plain by lia. cbn [Z.eqb Pos.eqb]. now rewrite app_nil_r.
  - apply Forall_cons in HF as [(Hnl & Hcr & Hi) HF]. cbn in Hf.
    cbn [flat_map map]. rewrite <- app_assoc.
    replace (name ++ quoted_rune i :: map quoted_rune items)
      with ((name ++ [quoted_rune i]) ++ map quoted_rune items)
      by now rewrite <- app_assoc.
    destruct i as [c|c]; cbn [quoted_text quoted_rune app] in *.
    + destruct Hi as [Hq Hb]. cbn [getExtendedSectionKey_quoted].
      rewrite nextRune_plain by assumption.
      destruct (Z.eqb_spec c NL) as [|_]; [easy|].
      destruct (Z.eqb_spec c DQUOTE) as [|_]; [easy|].
      destruct (Z.eqb_spec c BACKSLASH) as [|_]; [easy|].
      apply IH; [assumption|lia].
    + rewrite getExtendedSectionKey_quoted_escape by easy.
      apply IH; [assumption|lia].
Qed.

(** C5, amended: in the quoted part of an extended header a backslash
    makes the rune after it part of the name, whatever that rune is (the
    double quote and the backslash, and any other rune just as well); the
    only escaped rune that fails is the newline, with
    [ErrSectionNewLine].  [getSectionKey] never returns
    [ErrInvalidEscapeSequence].  So a quoted text made of literal runes
    and escaped runes yields the sequence of those runes. *)
Theorem section_escape_keeps_any_rune :
  (forall fuel name c rs ln e,
      c <> NL -> (c = CR -> hd 0 rs <> NL) ->
      getExtendedSectionKey_quoted (S fuel) name (mkParser (BACKSLASH :: c :: rs) ln e)
      = getExtendedSectionKey_quoted fuel (name ++ [c]) (mkParser rs ln e))
  /\ (forall fuel name rs ln e,
      getExtendedSectionKey_quoted (S fuel) name (mkParser (BACKSLASH :: NL :: rs) ln e)
      = Some (Return ErrSectionNewLine, mkParser rs (uint_dec (uint_inc ln)) e))
  /\ (forall fuel cf r cf',
      getSectionKey fuel cf = Some (r, cf') -> r.2 <> Some ErrInvalidEscapeSequence)
  /\ (forall items fuel name rest ln e,
      Forall quoted_ok items -> (length items < fuel)%nat ->
      getExtendedSectionKey_quoted fuel name
        (mkParser (flat_map quoted_text items ++ DQUOTE :: rest) ln e)
      = Some (Break (name ++ map quoted_rune items), mkParser rest ln e)).
Proof.
  split; [exact getExtendedSectionKey_quoted_escape|]. split; [reflexivity|].
  split; [|exact getExtendedSectionKey_quoted_items].
  intros fuel cf r cf'. apply getSectionKey_loop_no_escape_error.
Qed.

End SectionEscapes.

Lemma section_escape_keeps_any_rune_witness :
  LOWER_T <> NL /\ (LOWER_T = CR -> hd 0 (runes_of "y") <> NL)
  /\ Forall quoted_ok ex_quoted_items /\ (length ex_quoted_items < 6)%nat
  /\ getExtendedSectionKey_quoted 3 (runes_of "a.")
       (mkParser (BACKSLASH :: LOWER_T :: runes_of "y") 1 false)
     = getExtendedSectionKey_quoted 2 (runes_of "a." ++ [LOWER_T])
         (mkParser (runes_of "y") 1 false)
  /\ getExtendedSectionKey_quoted 6 (runes_of "a.")
       (mkParser (flat_map quoted_text ex_quoted_items ++ DQUOTE :: runes_of "]") 1 false)
     = Some (Break (runes_of "a.xt" ++ [DQUOTE; BACKSLASH] ++ runes_of "y"),
             mkParser (runes_of "]") 1 false).
Proof.
  assert (Forall quoted_ok ex_quoted_items) as HF.
  { repeat constructor; cbn; lia. }
  assert (LOWER_T = CR -> hd 0 (runes_of "y") <> NL) as Hcr by lia.
  split; [lia|]. split; [exact Hcr|]. split; [exact HF|].
  split; [cbn; lia|]. split.
  - apply (proj1 (@section_escape_keeps_any_rune ascii_tables)); [lia|exact Hcr].
  - apply (proj2 (proj2 (proj2 (@section_escape_keeps_any_rune ascii_tables)))
             ex_quoted_items 6%nat (runes_of "a.") (runes_of "]") 1 false HF).
    cbn; lia.
Defined.

(** * White space in values *)

Section ValueSpace.
Context {U : UnicodeTables}.

Lemma hd_blank_app ws rest :
  Forall blank ws -> hd 0 rest <> NL -> hd 0 (ws ++ rest) <> NL.
Proof. intros [|c ws' [_ Hc] _]; cbn; auto. Qed.

Lemma nextRune_blank c rs ln e :
  blank c -> hd 0 rs <> NL ->
  nextRune (mkParser (c :: rs) ln e) = (c, mkParser rs ln e).
Proof.
  intros [_ Hc] Hh. rewrite nextRune_cons.
  destruct (Z.eqb_spec c CR) as [->|_]; cbn [andb].
  - now destruct (Z.eqb_spec (hd 0 rs) NL).
  - now destruct (Z.eqb_spec c NL).
Qed.

Lemma parseValue_loop_blank fuel space value c rs ln e :
  blank c -> hd 0 rs <> NL ->
  parseValue_loop (S fuel) false false space value (mkParser (c :: rs) ln e)
  = parseValue_loop fuel false false
      (if (0 <? length value)%nat then S space else space) value (mkParser rs ln e).
Proof.
  intros Hb Hh. cbn [parseValue_loop]. rewrite nextRune_blank by assumption.
  destruct Hb as [Hs Hc]. destruct (Z.eqb_spec c NL) as [|_]; [easy|].
  now rewrite Hs.
Qed.

Lemma parseValue_loop_leading ws : forall fuel space rest ln e,
  Forall blank ws -> hd 0 rest <> NL ->
  parseValue_loop (length ws + fuel) false false space [] (mkParser (ws ++ rest) ln e)
  = parseValue_loop fuel false false space [] (mkParser rest ln e).
Proof.
  induction ws as [|c ws IH]; intros fuel space rest ln e HF Hh; [reflexivity|].
  apply Forall_cons in HF as [Hc HF]. cbn [length Nat.add app].
  rewrite parseValue_loop_blank by auto using hd_blank_app.
  cbn [length Nat.ltb Nat.leb]. now apply IH.
Qed.

Lemma value_rune_plain c : value_rune c -> c <> NL /\ c <> CR.
Proof.
  intros (Hs & _). split; intros ->.
  - now rewrite isspace_NL in Hs.
  - now rewrite isspace_CR in Hs.
Qed.

Lemma parseValue_loop_value_rune fuel quote space value c rs ln e :
  value_rune c ->
  parseValue_loop (S fuel) quote false space value (mkParser (c :: rs) ln e)
  = parseValue_loop fuel quote false 0 (value ++ repeat SP space ++ [c])
      (mkParser rs ln e).
Proof.
  intros Hv. destruct (value_rune_plain _ Hv) as [Hnl Hcr].
  destruct Hv as (Hs & H1 & H2 & H3 & H4). cbn [parseValue_loop].
  rewrite nextRune_plain by assumption.
  destruct (Z.eqb_spec c NL) as [|_]; [easy|]. rewrite Hs. cbn [andb].
  destruct (Z.eqb_spec c SEMI) as [|_]; [easy|].
  destruct (Z.eqb_spec c HASH) as [|_]; [easy|]. rewrite andb_false_r.
  destruct (Z.eqb_spec c BACKSLASH) as [|_]; [easy|].
  destruct (Z.eqb_spec c DQUOTE) as [|_]; [easy|]. now rewrite <- app_assoc.
Qed.

Lemma parseValue_loop_trailing ws : forall fuel space value rest ln e,
  Forall blank ws ->
  parseValue_loop (S (length ws) + fuel) false false space value
    (mkParser (ws ++ NL :: rest) ln e)
  = Some ((value, None), mkParser rest (uint_inc ln) e).
Proof.
  induction ws as [|c ws IH]; intros fuel space value rest ln e HF.
  - cbn [length Nat.add app parseValue_loop]. now rewrite nextRune_lf.
  - apply Forall_cons in HF as [Hc HF].
    destruct ws as [|c' ws].
    + destruct (Z.eqb_spec c CR) as [->|Hcr].
      * cbn [length Nat.add app parseValue_loop]. now rewrite nextRune_crlf.
      * cbn [length Nat.add app]. cbn [parseValue_loop].
        rewrite nextRune_plain by (destruct Hc; assumption).
        destruct Hc as [Hs Hc]. destruct (Z.eqb_spec c NL) as [|_]; [easy|].
        rewrite Hs. cbn [andb negb parseValue_loop]. now rewrite nextRune_lf.
    + change (S (length (c :: c' :: ws)) + fuel)%nat
        with (S (S (length (c' :: ws)) + fuel))%nat.
      cbn [app]. rewrite parseValue_loop_blank; [now apply IH|assumption|].
      apply Forall_cons in HF as [[_ Hc'] _]. exact Hc'.
Qed.

End ValueSpace.

(** * Serializing a mapping and parsing it again *)

Section RoundTrip.
Context {U : UnicodeTables}.

Lemma isalpha_plain c :
  isalpha c = true ->
  isspace c = false /\ c <> NL /\ c <> CR /\ c <> HASH /\ c <> SEMI /\ c <> LBRACKET.
Proof.
  unfold isalpha, isspace. intros H. split; [now apply IsLetter_not_space|].
  repeat split; intros ->; now rewrite IsLetter_ascii in H.
Qed.

Lemma iskeychar_plain c : iskeychar c = true -> c <> NL /\ c <> CR.
Proof.
  unfold iskeychar, isalnum, isalpha, isnum. intros H.
  split; intros ->; rewrite IsLetter_ascii, IsNumber_ascii in H by lia; discriminate.
Qed.

Lemma iskeychar_SP : iskeychar SP = false.
Proof.
  unfold iskeychar, isalnum, isalpha, isnum.
  now rewrite IsLetter_ascii, IsNumber_ascii.
Qed.

Lemma getValue_name_plain rest : forall fuel name tail ln,
  Forall (fun c => iskeychar c = true /\ lower c = c) rest ->
  (length rest < fuel)%nat ->
  getValue_name fuel name (mkParser (rest ++ SP :: tail) ln false)
  = Some ((SP, name ++ rest), mkParser tail ln false).
Proof.
  induction rest as [|c rest IH]; intros fuel name tail ln HF Hf;
    (destruct fuel as [|fuel]; [cbn in Hf; lia|]); cbn [app getValue_name].
  - rewrite nextRune_plain by lia. cbn [eof]. rewrite iskeychar_SP.
    now rewrite app_nil_r.
  - apply Forall_cons in HF as [[Hk Hl] HF].
    destruct (iskeychar_plain _ Hk). rewrite nextRune_plain by assumption.
    cbn [eof]. rewrite Hk, Hl. cbn [negb].
    rewrite IH; [|assumption|cbn in Hf; lia]. now rewrite <- app_assoc.
Qed.

Lemma plain_value_hd c v :
  (c = SP \/ value_rune c) -> hd 0 (c :: v) <> NL.
Proof. cbn. intros [->|H]; [lia|]. apply value_rune_plain, H. Qed.

Lemma parseValue_loop_plain_value v : forall fuel acc space rest ln,
  Forall (fun c => c = SP \/ value_rune c) v -> last v <> Some SP ->
  (acc = [] -> hd 0 v <> SP) -> (length v < fuel)%nat ->
  parseValue_loop fuel false false space acc (mkParser (v ++ NL :: rest) ln false)
  = Some ((match v with [] => acc | _ => acc ++ repeat SP space ++ v end, None),
          mkParser rest (uint_inc ln) false).
Proof.
  induction v as [|c v IH]; intros fuel acc space rest ln HF Hlast Hacc Hf;
    (destruct fuel as [|fuel]; [cbn in Hf; lia|]).
  - cbn [app parseValue_loop]. now rewrite nextRune_lf.
  - apply Forall_cons in HF as [Hc HF]. cbn in Hf. cbn [app].
    assert (last v <> Some SP) as Hlast'.
    { destruct v; [easy|]. exact Hlast. }
    destruct Hc as [->|Hc].
    + assert (acc <> []) as Hne by (intros ->; now apply Hacc).
      destruct v as [|c' v]; [easy|].
      rewrite parseValue_loop_blank.
      2:{ split; [|lia]. unfold isspace. now rewrite IsSpace_ascii. }
      2:{ apply Forall_cons in HF as [Hc' _]. now apply plain_value_hd. }
      replace (0 <? length acc)%nat with true by (destruct acc; easy).
      rewrite IH; [|assumption|assumption|easy|cbn in Hf |- *; lia].
      cbn [repeat]. rewrite repeat_cons, <- !app_assoc. reflexivity.
    + rewrite parseValue_loop_value_rune by assumption.
      rewrite IH; [|assumption|assumption| |lia].
      * destruct v; [reflexivity|]. cbn [repeat app]. now rewrite <- !app_assoc.
      * intros E. now apply app_eq_nil in E as [_ E%app_eq_nil].
Qed.

Lemma parseValue_plain_value v fuel rest ln :
  plain_value v -> (length v + 1 < fuel)%nat ->
  parseValue fuel (mkParser (SP :: v ++ NL :: rest) ln false)
  = Some ((v, None), mkParser rest (uint_inc ln) false).
Proof.
  intros (HF & Hhd & Hlast) Hf. unfold parseValue.
  assert (blank SP) as Hsp.
  { split; [|lia]. unfold isspace. now rewrite IsSpace_ascii. }
  destruct v as [|c v].
  - destruct fuel as [|[|fuel]]; [cbn in Hf; lia..|].
    apply (parseValue_loop_trailing [SP] fuel 0%nat [] rest ln false).
    now constructor.
  - destruct fuel as [|fuel]; [lia|].
    rewrite (parseValue_loop_leading [SP] fuel 0%nat (c :: v ++ NL :: rest) ln false).
    + change (c :: v ++ NL :: rest) with ((c :: v) ++ NL :: rest).
      rewrite parseValue_loop_plain_value;
        [reflexivity|assumption|assumption|intros _; assumption|cbn in Hf |- *; lia].
    + now constructor.
    + apply Forall_cons in HF as [Hc _]. now apply (plain_value_hd c v).
Qed.

(** One serialized line, read by the driver at the start of a statement. *)
Lemma parse_loop_entry k v fuel cfg rest ln :
  plain_key k -> plain_value v ->
  (length k + length v + 3 < fuel)%nat ->
  parse_loop (S fuel) false cfg []
    (mkParser (k ++ runes_of " = " ++ v ++ NL :: rest) ln false)
  = parse_loop fuel false (<[k := v]> cfg) [] (mkParser rest (uint_inc ln) false).
Proof.
  intros Hk Hv Hf. destruct k as [|c krest]; [easy|]. destruct Hk as [Hc Hrest].
  destruct (isalpha_plain _ Hc) as (Hs & Hnl & Hcr & Hh & Hsc & Hlb).
  cbn [app parse_loop]. rewrite nextRune_plain by assumption.
  destruct (Z.eqb_spec c NL) as [|_]; [easy|]. rewrite Hs. cbn [orb].
  destruct (Z.eqb_spec c HASH) as [|_]; [easy|].
  destruct (Z.eqb_spec c SEMI) as [|_]; [easy|]. cbn [orb].
  destruct (Z.eqb_spec c LBRACKET) as [|_]; [easy|]. rewrite Hc. cbn [negb app].
  unfold getValue. change (runes_of " = ") with [SP; EQUALS; SP].
  cbn [app]. cbn in Hf.
  rewrite getValue_name_plain; [|assumption|lia].
  destruct fuel as [|[|fuel']] eqn:Efuel; [lia..|]. rewrite <- Efuel.
  replace (getValue_blank fuel SP (mkParser (EQUALS :: SP :: v ++ NL :: rest) ln false))
    with (Some (EQUALS, mkParser (SP :: v ++ NL :: rest) ln false)).
  2:{ rewrite Efuel. cbn [getValue_blank Z.eqb Pos.eqb orb].
      now rewrite nextRune_plain by lia. }
  cbn [Z.eqb Pos.eqb negb].
  rewrite parseValue_plain_value; [reflexivity|assumption|lia].
Qed.

Lemma serialize_cons kv l :
  serialize (kv :: l) = kv.1 ++ runes_of " = " ++ kv.2 ++ NL :: serialize l.
Proof. unfold serialize. cbn [flat_map]. now rewrite <- !app_assoc. Qed.

Lemma parse_loop_serialize l : forall fuel cfg ln,
  Forall (fun kv => plain_key kv.1 /\ plain_value kv.2) l ->
  (length (serialize l) + 2 <= fuel)%nat ->
  exists ln',
    parse_loop fuel false cfg [] (mkParser (serialize l) ln false)
    = Some ((foldl put cfg l, None), mkParser [] ln' true).
Proof.
  induction l as [|[k v] l IH]; intros fuel cfg ln HF Hf.
  - destruct fuel as [|fuel]; [lia|]. exists ln. reflexivity.
  - apply Forall_cons in HF as [[Hk Hv] HF]. cbn [fst snd] in *.
    rewrite serialize_cons in Hf |- *. cbn [fst snd] in *.
    rewrite !length_app in Hf. cbn [length runes_of] in Hf.
    destruct fuel as [|fuel]; [lia|].
    rewrite parse_loop_entry; [|assumption|assumption|lia].
    cbn [foldl]. apply IH; [assumption|lia].
Qed.

Lemma foldl_put_list_to_map (l : list (list Z * list Z)) : forall cfg,
  NoDup l.*1 -> foldl put cfg l = list_to_map l ∪ cfg.
Proof.
  induction l as [|[k v] l IH]; intros cfg Hnd.
  - cbn. now rewrite (left_id_L ∅ (∪)).
  - rewrite fmap_cons in Hnd. apply NoDup_cons in Hnd as [Hk Hnd].
    cbn [foldl]. rewrite IH by assumption.
    unfold put. rewrite list_to_map_cons. cbn [fst snd].
    rewrite <- insert_union_l. symmetry.
    apply insert_union_r. now apply not_elem_of_list_to_map.
Qed.

(** C1, amended: if the mapping that a successful parse yields has only
    keys without section (a letter, then key characters that [lower]
    leaves alone) and only values made of spaces and runes that stand for
    themselves, with no space at either end, then the lines [key = value]
    of its entries, in any order, parse successfully to that same
    mapping. *)
Theorem Parse_serialize_plain bytes m ln l :
  Parse bytes = Some (m, ln, None) ->
  map_Forall (fun k v => plain_key k /\ plain_value v) m ->
  l ≡ₚ map_to_list m ->
  exists ln', Parse (serialize l) = Some (m, ln', None).
Proof.
  intros _ Hm Hl.
  assert (Forall (fun kv => plain_key kv.1 /\ plain_value kv.2) l) as HF.
  { apply Forall_forall. intros [k v] Hin. rewrite Hl in Hin.
    apply elem_of_map_to_list in Hin. exact (Hm k v Hin). }
  assert (NoDup l.*1) as Hnd by (rewrite Hl; apply NoDup_fst_map_to_list).
  unfold Parse, parse.
  destruct (parse_loop_serialize l (fuel_for (mkParser (serialize l) 1 false)) ∅ 1 HF)
    as [ln' ->]; [unfold fuel_for; cbn; lia|].
  exists ln'. cbn [linenr]. rewrite foldl_put_list_to_map by assumption.
  rewrite (right_id_L ∅ (∪)).
  rewrite (list_to_map_proper l (map_to_list m)) by assumption.
  now rewrite list_to_map_to_list.
Qed.

End RoundTrip.

(** * Cutting the input after what was read

    A run that stops with [t ++ rest] still to read has not looked at
    [rest]: on the input cut off before [rest] it does the same and stops
    with [t] to read. *)

Section Framing.
Context {U : UnicodeTables}.























End Framing.

Lemma Parse_serialize_plain_witness :
  @Parse ascii_tables ex_plain = Some (ex_plain_map, 3, None)
  /\ map_Forall (fun k v => @plain_key ascii_tables k /\ @plain_value ascii_tables v)
       ex_plain_map
  /\ ex_plain_entries ≡ₚ map_to_list ex_plain_map
  /\ exists ln', @Parse ascii_tables (serialize ex_plain_entries)
                 = Some (ex_plain_map, ln', None).
Proof.
  assert (@Parse ascii_tables ex_plain = Some (ex_plain_map, 3, None)) as HP
    by (vm_compute; reflexivity).
  assert (map_Forall (fun k v => @plain_key ascii_tables k /\ @plain_value ascii_tables v)
            ex_plain_map) as HF.
  { assert (forall v,
              Forall (fun c => c = SP \/ @value_rune ascii_tables c) v ->
              hd 0 v <> SP -> last v <> Some SP -> @plain_value ascii_tables v) as Hv
      by (intros v H1 H2 H3; repeat split; assumption).
    apply map_Forall_insert_2; [|apply map_Forall_singleton]; (split; [|apply Hv]).
    - cbn. split; [reflexivity|constructor].
    - repeat (apply Forall_cons; split;
              [first [left; reflexivity
                     |right; vm_compute; repeat split; first [reflexivity|discriminate]]|]).
      constructor.
    - cbn. lia.
    - discriminate.
    - cbn. split; [reflexivity|]. repeat constructor.
    - repeat (apply Forall_cons; split;
              [first [left; reflexivity
                     |right; vm_compute; repeat split; first [reflexivity|discriminate]]|]).
      constructor.
    - cbn. lia.
    - discriminate. }
  assert (ex_plain_entries ≡ₚ map_to_list ex_plain_map) as Hl.
  { unfold ex_plain_map, ex_plain_entries.
    rewrite map_to_list_insert by (vm_compute; reflexivity).
    rewrite map_to_list_singleton. apply perm_swap. }
  split; [exact HP|]. split; [exact HF|]. split; [exact Hl|].
  exact (@Parse_serialize_plain ascii_tables _ _ _ _ HP HF Hl).
Defined.

(** * The line counter

    Every run reads a piece of the input and moves the line counter by the
    newlines in it; the only steps back are the ones taken right before
    [ErrSectionNewLine] and [ErrUnfinishedQuote] are returned. *)

Section LineCounter.
Context {U : UnicodeTables}.

Lemma newlines_app s t : newlines (s ++ t) = newlines s + newlines t.
Proof. induction s as [|c s IH]; cbn [app newlines]; lia. Qed.

Lemma newlines_nonneg s : 0 <= newlines s.
Proof. induction s as [|c s IH]; cbn [newlines]; [lia|]. destruct (c =? NL); lia. Qed.

Lemma reads_refl cf : reads cf cf 0.
Proof.
  exists []. split; [reflexivity|]. split; [|auto].
  intros H. cbn [newlines]. rewrite Z.mod_small; lia.
Qed.

Lemma reads_dec cf : reads cf (set_linenr (uint_dec (linenr cf)) cf) 1.
Proof.
  exists []. split; [reflexivity|]. split; [|auto].
  intros _. cbn. unfold uint_dec. f_equal. lia.
Qed.

Lemma reads_trans cf cf1 cf2 d :
  reads cf cf1 0 -> reads cf1 cf2 d -> reads cf cf2 d.
Proof.
  intros (s1 & H1 & L1 & E1) (s2 & H2 & L2 & E2).
  exists (s1 ++ s2). split; [rewrite H1, H2; now rewrite app_assoc|].
  split; [|auto].
  intros Hr. specialize (L1 Hr).
  assert (0 <= linenr cf1 < 2 ^ 64) as Hr1.
  { rewrite L1. apply Z.mod_pos_bound. lia. }
  rewrite (L2 Hr1), L1, newlines_app.
  rewrite Z.sub_0_r, <- Z.add_sub_assoc, Zplus_mod_idemp_l. f_equal. lia.
Qed.

Lemma reads_nextRune cf c cf1 : nextRune cf = (c, cf1) -> reads cf cf1 0.
Proof.
  intros En.
  destruct (nextRune_cases _ _ _ En) as [(H & _ & ->)|[(H & _ & ->)|(H & _ & ->)]].
  - exists []. rewrite H. split; [reflexivity|]. split; [|auto].
    intros Hr. cbn. rewrite Z.mod_small; lia.
  - exists [CR; NL]. split; [exact H|]. split.
    + intros _. cbn. unfold uint_inc. f_equal. lia.
    + intros He. cbn [eof runes]. intros E. specialize (He E). now rewrite H in He.
  - exists [c]. split; [exact H|]. split.
    + intros Hr. cbn [linenr newlines]. destruct (c =? NL).
      * unfold uint_inc. f_equal. lia.
      * rewrite Z.mod_small; lia.
    + intros He. cbn [eof runes]. intros E. specialize (He E). now rewrite H in He.
Qed.

Lemma reads_next cf c cf1 cf' d :
  nextRune cf = (c, cf1) -> reads cf1 cf' d -> reads cf cf' d.
Proof. intros En. apply reads_trans. now apply reads_nextRune in En. Qed.

(** A branch of a loop: the runes read in this iteration, then either
    the return (with or without the step back) or the next round. *)
Ltac reads_branch IH :=
  cbn [exit_shift fault_shift fst snd];
  repeat (eapply reads_next; [eassumption|]);
  first [apply reads_refl | apply reads_dec | eapply IH; eassumption].

Lemma getExtendedSectionKey_space_reads fuel : forall c cf x cf',
  getExtendedSectionKey_space fuel c cf = Some (x, cf') -> reads cf cf' (exit_shift x).
Proof.
  induction fuel as [|fuel IH]; intros c cf x cf' H; [discriminate|].
  cbn [getExtendedSectionKey_space] in H.
  destruct (c =? NL); [injection H as <- <-; reads_branch IH|].
  destruct (nextRune cf) as [c1 cf1] eqn:En.
  destruct (negb (isspace c1)); [injection H as <- <-|]; reads_branch IH.
Qed.

Lemma getExtendedSectionKey_quoted_reads fuel : forall name cf x cf',
  getExtendedSectionKey_quoted fuel name cf = Some (x, cf') ->
  reads cf cf' (exit_shift x).
Proof.
  induction fuel as [|fuel IH]; intros name cf x cf' H; [discriminate|].
  cbn [getExtendedSectionKey_quoted] in H.
  destruct (nextRune cf) as [c1 cf1] eqn:En.
  destruct (c1 =? NL); [injection H as <- <-; reads_branch IH|].
  destruct (c1 =? DQUOTE); [injection H as <- <-; reads_branch IH|].
  destruct (c1 =? BACKSLASH); [|reads_branch IH].
  destruct (nextRune cf1) as [c2 cf2] eqn:En2.
  destruct (c2 =? NL); [injection H as <- <-|]; reads_branch IH.
Qed.

Lemma getExtendedSectionKey_reads fuel name c cf r cf' :
  getExtendedSectionKey fuel name c cf = Some (r, cf') ->
  reads cf cf' (fault_shift r.2).
Proof.
  unfold getExtendedSectionKey. intros H.
  destruct (getExtendedSectionKey_space fuel c cf) as [[[c1|e] cf1]|] eqn:E1;
    [| |discriminate]; apply getExtendedSectionKey_space_reads in E1.
  2:{ now injection H as <- <-. }
  destruct (negb (c1 =? DQUOTE)); [now injection H as <- <-|].
  destruct (getExtendedSectionKey_quoted fuel (name ++ [DOT]) cf1)
    as [[[nm|e] cf2]|] eqn:E2; [| |discriminate];
    apply getExtendedSectionKey_quoted_reads in E2.
  2:{ injection H as <- <-. exact (reads_trans _ _ _ _ E1 E2). }
  destruct (nextRune cf2) as [c3 cf3] eqn:En. apply reads_nextRune in En.
  pose proof (reads_trans _ _ _ _ E1 (reads_trans _ _ _ _ E2 En)) as R.
  destruct (negb (c3 =? RBRACKET)); now injection H as <- <-.
Qed.

Lemma getSectionKey_loop_reads fuel : forall name cf r cf',
  getSectionKey_loop fuel name cf = Some (r, cf') -> reads cf cf' (fault_shift r.2).
Proof.
  induction fuel as [|fuel IH]; intros name cf r cf' H; [discriminate|].
  cbn [getSectionKey_loop] in H.
  destruct (nextRune cf) as [c1 cf1] eqn:En.
  destruct (eof cf1); [injection H as <- <-; reads_branch IH|].
  destruct (c1 =? RBRACKET); [injection H as <- <-; reads_branch IH|].
  destruct (isspace c1).
  - apply getExtendedSectionKey_reads in H. now apply (reads_next _ _ _ _ _ En).
  - destruct (negb (iskeychar c1) && negb (c1 =? DOT));
      [injection H as <- <-|]; reads_branch IH.
Qed.

Lemma parseValue_loop_reads fuel : forall quote comment space value cf r cf',
  parseValue_loop fuel quote comment space value cf = Some (r, cf') ->
  reads cf cf' (fault_shift r.2).
Proof.
  induction fuel as [|fuel IH]; intros quote comment space value cf r cf' H;
    [discriminate|].
  cbn [parseValue_loop] in H.
  destruct (nextRune cf) as [c1 cf1] eqn:En.
  destruct (c1 =? NL). { destruct quote; injection H as <- <-; reads_branch IH. }
  destruct comment; [reads_branch IH|].
  destruct (isspace c1 && negb quote); [reads_branch IH|].
  destruct (negb quote && _); [reads_branch IH|].
  destruct (c1 =? BACKSLASH).
  - destruct (nextRune cf1) as [c2 cf2] eqn:En2.
    destruct (c2 =? NL); [reads_branch IH|].
    destruct (c2 =? LOWER_T); [reads_branch IH|].
    destruct (c2 =? LOWER_B); [reads_branch IH|].
    destruct (c2 =? LOWER_N); [reads_branch IH|].
    injection H as <- <-. reads_branch IH.
  - destruct (c1 =? DQUOTE); reads_branch IH.
Qed.

Lemma getValue_name_reads fuel : forall name cf r cf',
  getValue_name fuel name cf = Some (r, cf') -> reads cf cf' 0.
Proof.
  induction fuel as [|fuel IH]; intros name cf r cf' H; [discriminate|].
  cbn [getValue_name] in H.
  destruct (nextRune cf) as [c1 cf1] eqn:En.
  destruct (eof cf1); [injection H as <- <-; reads_branch IH|].
  destruct (negb (iskeychar c1)); [injection H as <- <-|]; reads_branch IH.
Qed.

Lemma getValue_blank_reads fuel : forall c cf r cf',
  getValue_blank fuel c cf = Some (r, cf') -> reads cf cf' 0.
Proof.
  induction fuel as [|fuel IH]; intros c cf r cf' H; [discriminate|].
  cbn [getValue_blank] in H.
  destruct ((c =? SP) || (c =? TAB)).
  - destruct (nextRune cf) as [c1 cf1] eqn:En. reads_branch IH.
  - injection H as <- <-. apply reads_refl.
Qed.

Lemma getValue_reads fuel name cf r cf' :
  getValue fuel name cf = Some (r, cf') -> reads cf cf' (fault_shift r.2).
Proof.
  unfold getValue, parseValue. intros H.
  destruct (getValue_name fuel name cf) as [[[c1 nm] cf1]|] eqn:E1; [|discriminate].
  apply getValue_name_reads in E1.
  destruct (getValue_blank fuel c1 cf1) as [[c2 cf2]|] eqn:E2; [|discriminate].
  apply getValue_blank_reads in E2.
  pose proof (reads_trans _ _ _ _ E1 E2) as R.
  destruct (negb (c2 =? NL)); [|now injection H as <- <-].
  destruct (negb (c2 =? EQUALS)); [now injection H as <- <-|].
  destruct (parseValue_loop fuel false false 0 [] cf2) as [[[v err] cf3]|] eqn:E3;
    [|discriminate].
  apply parseValue_loop_reads in E3. cbn [snd] in E3.
  pose proof (reads_trans _ _ _ _ R E3) as R3.
  destruct err; now injection H as <- <-.
Qed.

Lemma parse_loop_reads fuel : forall comment cfg name cf r cf',
  parse_loop fuel comment cfg name cf = Some (r, cf') ->
  reads cf cf' (fault_shift r.2) /\ (r.2 = None -> eof cf' = true).
Proof.
  induction fuel as [|fuel IH]; intros comment cfg name cf r cf' H; [discriminate|].
  cbn [parse_loop] in H.
  destruct (nextRune cf) as [c1 cf1] eqn:En.
  pose proof (reads_nextRune _ _ _ En) as Rn.
  assert (forall cm cg nm cf2, reads cf1 cf2 0 ->
            parse_loop fuel cm cg nm cf2 = Some (r, cf') ->
            reads cf cf' (fault_shift r.2) /\ (r.2 = None -> eof cf' = true)) as Hrec.
  { intros cm cg nm cf2 R2 H2. apply IH in H2 as [R3 He]. split; [|exact He].
    exact (reads_trans _ _ _ _ Rn (reads_trans _ _ _ _ R2 R3)). }
  pose proof (reads_refl cf1) as R1.
  destruct (c1 =? NL).
  { destruct (eof cf1) eqn:Ee; [|now apply Hrec in H].
    injection H as <- <-. now split. }
  destruct (comment || isspace c1); [now apply Hrec in H|].
  destruct ((c1 =? HASH) || (c1 =? SEMI)); [now apply Hrec in H|].
  destruct (c1 =? LBRACKET).
  - destruct (getSectionKey fuel cf1) as [[[nm [e|]] cf2]|] eqn:E5; [| |discriminate];
      apply getSectionKey_loop_reads in E5; cbn [snd] in E5.
    + injection H as <- <-. split; [|discriminate].
      exact (reads_trans _ _ _ _ Rn E5).
    + now apply Hrec in H.
  - destruct (negb (isalpha c1)).
    { injection H as <- <-. split; [exact Rn|discriminate]. }
    destruct (getValue fuel (name ++ [c1]) cf1) as [[[[k v] [e|]] cf2]|] eqn:E6;
      [| |discriminate]; apply getValue_reads in E6; cbn [snd] in E6.
    + injection H as <- <-. split; [|discriminate].
      exact (reads_trans _ _ _ _ Rn E6).
    + now apply Hrec in H.
Qed.

(** X1: the line [Parse] returns.  [parse] leaves the cursor on the part
    of the input it has not read; the part [s] in front of it is what was
    read, all the input when the parse succeeds.  The line number [Parse]
    returns is the line of that cursor: [1] plus the number of newline
    runes in [s], less one when the error is [ErrSectionNewLine] or
    [ErrUnfinishedQuote], as a 64-bit [uint]. *)
Theorem Parse_line_number bytes cfg ln err :
  Parse bytes = Some (cfg, ln, err) ->
  exists s cf',
    parse (fuel_for (mkParser bytes 1 false)) (mkParser bytes 1 false)
      = Some ((cfg, err), cf')
    /\ bytes = s ++ runes cf'
    /\ ln = linenr cf'
    /\ ln = (1 + newlines s - fault_shift err) mod 2 ^ 64
    /\ (err = None -> runes cf' = [] /\ ln = (1 + newlines bytes) mod 2 ^ 64).
Proof.
  unfold Parse, parse. intros H.
  destruct (parse_loop _ false ∅ [] (mkParser bytes 1 false))
    as [[[cfg1 err1] cf']|] eqn:E; [|discriminate].
  injection H as -> <- ->.
  apply parse_loop_reads in E as [(s & Hs & Hl & He) Hend]. cbn [snd] in *.
  exists s, cf'. cbn [runes linenr eof] in *.
  split; [reflexivity|]. split; [exact Hs|]. split; [reflexivity|].
  assert (linenr cf' = (1 + newlines s - fault_shift err) mod 2 ^ 64) as Hln
    by (apply Hl; lia).
  split; [exact Hln|]. intros ->.
  assert (runes cf' = []) as Hnil by (apply He; [discriminate|now apply Hend]).
  split; [exact Hnil|]. rewrite Hnil, app_nil_r in Hs. subst s.
  rewrite Hln. cbn [fault_shift]. f_equal. lia.
Qed.

End LineCounter.

Lemma Parse_line_number_witness :
  @Parse ascii_tables (ex_sectioned ++ ex_unfinished_quote ++ [NL] ++ runes_of "c=1")
    = Some ({[ runes_of "a.b" := runes_of "1" ]}, 3, Some ErrUnfinishedQuote)
  /\ exists s cf',
       @parse ascii_tables
         (fuel_for (mkParser (ex_sectioned ++ ex_unfinished_quote ++ [NL] ++ runes_of "c=1")
                      1 false))
         (mkParser (ex_sectioned ++ ex_unfinished_quote ++ [NL] ++ runes_of "c=1") 1 false)
       = Some (({[ runes_of "a.b" := runes_of "1" ]}, Some ErrUnfinishedQuote), cf')
       /\ ex_sectioned ++ ex_unfinished_quote ++ [NL] ++ runes_of "c=1" = s ++ runes cf'
       /\ 3 = linenr cf'
       /\ 3 = (1 + newlines s - fault_shift (Some ErrUnfinishedQuote)) mod 2 ^ 64
       /\ (Some ErrUnfinishedQuote = None ->
           runes cf' = []
           /\ 3 = (1 + newlines (ex_sectioned ++ ex_unfinished_quote ++ [NL]
                                   ++ runes_of "c=1")) mod 2 ^ 64).
Proof.
  assert (@Parse ascii_tables
            (ex_sectioned ++ ex_unfinished_quote ++ [NL] ++ runes_of "c=1")
          = Some ({[ runes_of "a.b" := runes_of "1" ]}, 3, Some ErrUnfinishedQuote))
    as H by (vm_compute; reflexivity).
  split; [exact H|]. exact (@Parse_line_number ascii_tables _ _ _ _ H).
Defined.

(** * Which errors come from where, and what a value can hold *)

Section ErrorKinds.
Context {U : UnicodeTables}.

Lemma getExtendedSectionKey_kinds fuel name c cf r cf' :
  getExtendedSectionKey fuel name c cf = Some (r, cf') ->
  match r.2 with Some e => header_error e /\ r.1 = [] | None => True end.
Proof.
  unfold getExtendedSectionKey, header_error. intros H.
  destruct (getExtendedSectionKey_space fuel c cf) as [[[c1|e] cf1]|] eqn:E1;
    [| |discriminate].
  2:{ apply getExtendedSectionKey_space_error in E1 as ->.
      injection H as <- _. cbn. auto. }
  destruct (negb (c1 =? DQUOTE)); [injection H as <- _; cbn; auto 6|].
  destruct (getExtendedSectionKey_quoted fuel (name ++ [DOT]) cf1)
    as [[[nm|e] cf2]|] eqn:E2; [| |discriminate].
  2:{ apply getExtendedSectionKey_quoted_error in E2 as ->.
      injection H as <- _. cbn. auto. }
  destruct (nextRune cf2) as [c3 cf3].
  destruct (negb (c3 =? RBRACKET)); injection H as <- _; cbn; auto 6.
Qed.

Lemma getSectionKey_loop_kinds fuel : forall name cf r cf',
  getSectionKey_loop fuel name cf = Some (r, cf') ->
  match r.2 with Some e => header_error e /\ r.1 = [] | None => True end.
Proof.
  induction fuel as [|fuel IH]; intros name cf r cf'; [discriminate|].
  cbn [getSectionKey_loop]. destruct (nextRune cf) as [c1 cf1].
  unfold header_error.
  destruct (eof cf1); [intros [= <- _]; cbn; auto|].
  destruct (c1 =? RBRACKET); [now intros [= <- _]|].
  destruct (isspace c1); [apply getExtendedSectionKey_kinds|].
  destruct (negb (iskeychar c1) && negb (c1 =? DOT)); [intros [= <- _]; cbn; auto|].
  apply IH.
Qed.

Lemma parseValue_loop_kinds fuel : forall quote comment space value cf r cf',
  parseValue_loop fuel quote comment space value cf = Some (r, cf') ->
  quote_free value ->
  match r.2 with Some e => value_error e /\ r.1 = [] | None => quote_free r.1 end.
Proof.
  induction fuel as [|fuel IH]; intros quote comment space value cf r cf';
    [discriminate|].
  cbn [parseValue_loop]. destruct (nextRune cf) as [c1 cf1].
  unfold value_error. intros H Hv.
  assert (quote_free (value ++ repeat SP space)) as Hv'.
  { apply Forall_app. split; [exact Hv|]. apply Forall_forall.
    intros x Hx%list_elem_of_In%repeat_spec. subst x. split; discriminate. }
  assert (forall c, c <> DQUOTE -> c <> BACKSLASH ->
            quote_free ((value ++ repeat SP space) ++ [c])) as Hadd.
  { intros c H1 H2. apply Forall_app. split; [exact Hv'|]. now repeat constructor. }
  destruct (c1 =? NL).
  { destruct quote; injection H as <- _; cbn; auto. }
  destruct comment; [now apply IH in H|].
  destruct (isspace c1 && negb quote); [now apply IH in H|].
  destruct (negb quote && _); [now apply IH in H|].
  destruct (Z.eqb_spec c1 BACKSLASH) as [_|Hb].
  - destruct (nextRune cf1) as [c2 cf2].
    destruct (c2 =? NL); [now apply IH in H|].
    destruct (c2 =? LOWER_T); [apply IH in H; [exact H|apply Hadd; discriminate]|].
    destruct (c2 =? LOWER_B); [apply IH in H; [exact H|apply Hadd; discriminate]|].
    destruct (c2 =? LOWER_N); [apply IH in H; [exact H|apply Hadd; discriminate]|].
    injection H as <- _. cbn. auto.
  - destruct (Z.eqb_spec c1 DQUOTE) as [_|Hq]; [now apply IH in H|].
    apply IH in H; [exact H|now apply Hadd].
Qed.

Lemma getValue_kinds fuel name cf r cf' :
  getValue fuel name cf = Some (r, cf') ->
  match r.2 with
  | Some e => key_line_error e /\ r.1.2 = []
  | None => quote_free r.1.2
  end.
Proof.
  unfold getValue, parseValue, key_line_error. intros H.
  destruct (getValue_name fuel name cf) as [[[c1 nm] cf1]|]; [|discriminate].
  destruct (getValue_blank fuel c1 cf1) as [[c2 cf2]|]; [|discriminate].
  destruct (negb (c2 =? NL)); [|injection H as <- _; cbn; constructor].
  destruct (negb (c2 =? EQUALS)); [injection H as <- _; cbn; auto|].
  destruct (parseValue_loop fuel false false 0 [] cf2) as [[[v err] cf3]|] eqn:E3;
    [|discriminate].
  apply parseValue_loop_kinds in E3; [|constructor]. cbn [fst snd] in E3.
  destruct err; injection H as <- _; cbn; [|exact E3]. destruct E3. auto.
Qed.

Lemma parse_loop_values fuel : forall comment cfg name cf r cf',
  parse_loop fuel comment cfg name cf = Some (r, cf') ->
  map_Forall (fun _ v => quote_free v) cfg ->
  map_Forall (fun _ v => quote_free v) r.1
  /\ match r.2 with
     | Some e => e = ErrInvalidKeyChar \/ header_error e \/ value_error e
     | None => True
     end.
Proof.
  induction fuel as [|fuel IH]; intros comment cfg name cf r cf'; [discriminate|].
  cbn [parse_loop]. destruct (nextRune cf) as [c1 cf1]. intros H Hm.
  destruct (c1 =? NL).
  { destruct (eof cf1); [now injection H as <- _|now apply IH in H]. }
  destruct (comment || isspace c1); [now apply IH in H|].
  destruct ((c1 =? HASH) || (c1 =? SEMI)); [now apply IH in H|].
  destruct (c1 =? LBRACKET).
  - destruct (getSectionKey fuel cf1) as [[[nm [e|]] cf2]|] eqn:E5; [| |discriminate].
    + apply getSectionKey_loop_kinds in E5 as [E5 _]. injection H as <- _.
      cbn. auto.
    + now apply IH in H.
  - destruct (negb (isalpha c1)); [injection H as <- _; cbn; auto|].
    destruct (getValue fuel (name ++ [c1]) cf1) as [[[[k v] [e|]] cf2]|] eqn:E6;
      [| |discriminate]; apply getValue_kinds in E6; cbn [fst snd] in E6.
    + injection H as <- _. cbn. destruct E6 as [[->|E6] _]; auto.
    + apply IH in H; [exact H|]. now apply map_Forall_insert_2.
Qed.

(** X2: which errors come from where.  A section header only ever fails
    with one of the five header errors and a key line only with
    [ErrInvalidKeyChar] or one of the two value errors, each time with the
    empty string for a result; so an error of [Parse] tells which kind of
    statement was at fault. *)
Theorem error_kinds fuel cf :
  (forall r cf', getSectionKey fuel cf = Some (r, cf') ->
     match r.2 with Some e => header_error e /\ r.1 = [] | None => True end)
  /\ (forall name r cf', getValue fuel name cf = Some (r, cf') ->
     match r.2 with Some e => key_line_error e /\ r.1.2 = [] | None => True end)
  /\ (forall r cf', parseValue fuel cf = Some (r, cf') ->
     match r.2 with Some e => value_error e /\ r.1 = [] | None => True end).
Proof.
  split; [|split].
  - intros r cf'. apply getSectionKey_loop_kinds.
  - intros name r cf' H. apply getValue_kinds in H. now destruct r.2.
  - intros r cf' H. apply parseValue_loop_kinds in H; [|constructor].
    now destruct r.2.
Qed.

(** X3: no value of the mapping that [Parse] returns, with or without an
    error, holds a double quote or a backslash: quotes only switch the
    quote mode and a backslash is only ever the start of an escape. *)
Theorem Parse_values_quote_free bytes cfg ln err k v :
  Parse bytes = Some (cfg, ln, err) -> cfg !! k = Some v -> quote_free v.
Proof.
  unfold Parse, parse. intros H Hk.
  destruct (parse_loop _ false ∅ [] (mkParser bytes 1 false))
    as [[[cfg1 err1] cf']|] eqn:E; [|discriminate].
  injection H as -> _ _.
  apply parse_loop_values in E as [E _]; [|apply map_Forall_empty].
  exact (E k v Hk).
Qed.

End ErrorKinds.

(** * Statement by statement

    What the driver does with each kind of line of a well-formed file, as
    an equation between the run that starts at the line and the run that
    starts after it. *)

Section Statements.
Context {U : UnicodeTables}.

Lemma nextRune_keep c rs ln e :
  c <> NL -> hd 0 rs <> NL ->
  nextRune (mkParser (c :: rs) ln e) = (c, mkParser rs ln e).
Proof.
  intros Hc Hh. rewrite nextRune_cons.
  destruct (Z.eqb_spec c CR) as [->|_]; cbn [andb].
  - now destruct (Z.eqb_spec (hd 0 rs) NL).
  - now destruct (Z.eqb_spec c NL).
Qed.

Lemma nextRune_line_end le rest ln e :
  line_end le ->
  nextRune (mkParser (le ++ rest) ln e) = (NL, mkParser rest (uint_inc ln) e).
Proof. intros [-> | ->]; [apply nextRune_lf|apply nextRune_crlf]. Qed.

Lemma iskeychar_not_space c : iskeychar c = true -> isspace c = false.
Proof.
  unfold iskeychar, isalnum, isalpha, isnum, isspace. intros H.
  apply orb_true_iff in H as [H|H].
  - apply orb_true_iff in H as [H|H];
      [now apply IsLetter_not_space|now apply IsNumber_not_space].
  - apply Z.eqb_eq in H as ->. now rewrite IsSpace_ascii.
Qed.

(** A key character is none of the ASCII runes that are not letters,
    digits or the minus sign. *)
Lemma iskeychar_ne c x :
  iskeychar c = true -> 0 <= x < 128 ->
  ascii_letter x || ascii_digit x || (x =? MINUS) = false -> c <> x.
Proof.
  intros H Hx Hf ->. unfold iskeychar, isalnum, isalpha, isnum in H.
  rewrite IsLetter_ascii, IsNumber_ascii in H by assumption. congruence.
Qed.

Lemma iskeychar_false x :
  0 <= x < 128 -> ascii_letter x || ascii_digit x || (x =? MINUS) = false ->
  iskeychar x = false.
Proof.
  intros Hx Hf. unfold iskeychar, isalnum, isalpha, isnum.
  now rewrite IsLetter_ascii, IsNumber_ascii by assumption.
Qed.

Lemma header_rune_section_rune c : header_rune c -> section_rune c.
Proof.
  intros [H| ->].
  - split; [now apply iskeychar_not_space|]. split; [|now left].
    now apply (iskeychar_ne c RBRACKET).
  - split; [unfold isspace; now rewrite IsSpace_ascii|]. split; [lia|now right].
Qed.

Lemma getSectionKey_loop_step fuel name c rs ln :
  section_rune c ->
  getSectionKey_loop (S fuel) name (mkParser (c :: rs) ln false)
  = getSectionKey_loop fuel (name ++ [lower c]) (mkParser rs ln false).
Proof.
  intros (Hs & Hb & Hk). cbn [getSectionKey_loop].
  rewrite nextRune_nonspace by assumption. cbn [eof].
  destruct (Z.eqb_spec c RBRACKET) as [|_]; [easy|]. rewrite Hs.
  replace (negb (iskeychar c) && negb (c =? DOT)) with false; [reflexivity|].
  destruct Hk as [->| ->]; [reflexivity|]. now rewrite andb_false_r.
Qed.

Lemma getSectionKey_loop_plain sec : forall fuel name rest ln,
  Forall header_rune sec -> (length sec < fuel)%nat ->
  getSectionKey_loop fuel name (mkParser (sec ++ RBRACKET :: rest) ln false)
  = Some ((name ++ map lower sec, None), mkParser rest ln false).
Proof.
  induction sec as [|c sec IH]; intros fuel name rest ln HF Hf;
    (destruct fuel as [|fuel]; [cbn in Hf; lia|]).
  - cbn [app getSectionKey_loop map]. rewrite nextRune_plain by lia.
    cbn [eof Z.eqb Pos.eqb]. now rewrite app_nil_r.
  - apply Forall_cons in HF as [Hc HF]. cbn [app map].
    rewrite getSectionKey_loop_step by now apply header_rune_section_rune.
    rewrite IH; [|assumption|cbn in Hf; lia]. now rewrite <- app_assoc.
Qed.

Lemma parse_loop_open_bracket fuel cfg name rs ln :
  parse_loop (S fuel) false cfg name (mkParser (LBRACKET :: rs) ln false)
  = match getSectionKey fuel (mkParser rs ln false) with
    | None => None
    | Some ((_, Some err), cf) => Some ((cfg, Some err), cf)
    | Some ((name', None), cf) => parse_loop fuel false cfg (name' ++ [DOT]) cf
    end.
Proof.
  cbn [parse_loop]. rewrite nextRune_plain by lia.
  cbn [Z.eqb Pos.eqb orb]. unfold isspace at 1. rewrite IsSpace_ascii by lia.
  reflexivity.
Qed.

(** X4: a plain section header.  At the start of a statement, a bracketed
    run of key characters and dots makes the lower-cased run, followed by
    a dot, the prefix of the keys that follow; the prefix that was in
    force is dropped, not extended, and the mapping is untouched. *)
Theorem parse_loop_plain_header sec fuel cfg name rest ln :
  Forall header_rune sec -> (length sec < fuel)%nat ->
  parse_loop (S fuel) false cfg name
    (mkParser (LBRACKET :: sec ++ RBRACKET :: rest) ln false)
  = parse_loop fuel false cfg (map lower sec ++ [DOT]) (mkParser rest ln false).
Proof.
  intros HF Hf. rewrite parse_loop_open_bracket. unfold getSectionKey.
  now rewrite getSectionKey_loop_plain.
Qed.

Lemma blank_hd ws x rest :
  Forall blank ws -> x <> NL -> hd 0 (ws ++ x :: rest) <> NL.
Proof. intros [|c ws' [_ Hc] _] Hx; cbn; auto. Qed.

Lemma getExtendedSectionKey_space_run ws : forall fuel b x rest ln e,
  blank b -> Forall blank ws -> isspace x = false -> (length ws + 1 < fuel)%nat ->
  getExtendedSectionKey_space fuel b (mkParser (ws ++ x :: rest) ln e)
  = Some (Break x, mkParser rest ln e).
Proof.
  induction ws as [|w ws IH]; intros fuel b x rest ln e Hb HF Hx Hf;
    (destruct fuel as [|fuel]; [cbn in Hf; lia|]); cbn [app getExtendedSectionKey_space];
    destruct Hb as [_ Hb]; (destruct (Z.eqb_spec b NL) as [|_]; [easy|]).
  - rewrite nextRune_nonspace by assumption. now rewrite Hx.
  - apply Forall_cons in HF as [Hw HF].
    assert (x <> NL) as Hxn by (intros ->; now rewrite isspace_NL in Hx).
    rewrite nextRune_blank by auto using blank_hd.
    destruct Hw as [Hws Hwn]. rewrite Hws. cbn [negb].
    apply IH; [now split|assumption|assumption|cbn in Hf; lia].
Qed.

Lemma getExtendedSectionKey_run fuel name b ws items rest ln e :
  blank b -> Forall blank ws -> Forall quoted_ok items ->
  (length ws + length items + 1 < fuel)%nat ->
  getExtendedSectionKey fuel name b
    (mkParser (ws ++ DQUOTE :: flat_map quoted_text items ++ DQUOTE :: RBRACKET :: rest)
       ln e)
  = Some ((name ++ DOT :: map quoted_rune items, None), mkParser rest ln e).
Proof.
  intros Hb Hws Hit Hf. unfold getExtendedSectionKey.
  rewrite getExtendedSectionKey_space_run;
    [|assumption|assumption|unfold isspace; now rewrite IsSpace_ascii|lia].
  cbn [Z.eqb Pos.eqb negb].
  rewrite getExtendedSectionKey_quoted_items; [|assumption|lia].
  rewrite nextRune_plain by lia. cbn [Z.eqb Pos.eqb negb].
  now rewrite <- app_assoc.
Qed.

(** X5: an extended section header.  A plain name, white space, and a
    quoted text closed right before the bracket make the prefix: the
    lower-cased name, a dot, the quoted text with every backslash dropped
    and the rune after it kept, case and all, and a dot. *)
Theorem parse_loop_extended_header sec b ws items fuel cfg name rest ln :
  Forall header_rune sec -> blank b -> Forall blank ws -> Forall quoted_ok items ->
  (length sec + length ws + length items + 2 < fuel)%nat ->
  parse_loop (S fuel) false cfg name
    (mkParser (LBRACKET :: sec ++ b :: ws ++ DQUOTE :: flat_map quoted_text items
                 ++ DQUOTE :: RBRACKET :: rest) ln false)
  = parse_loop fuel false cfg (map lower sec ++ DOT :: map quoted_rune items ++ [DOT])
      (mkParser rest ln false).
Proof.
  intros Hsec Hb Hws Hit Hf. rewrite parse_loop_open_bracket. unfold getSectionKey.
  assert (forall name f, (length sec + length ws + length items + 2 < f)%nat ->
    getSectionKey_loop f name
      (mkParser (sec ++ b :: ws ++ DQUOTE :: flat_map quoted_text items
                   ++ DQUOTE :: RBRACKET :: rest) ln false)
    = Some ((name ++ map lower sec ++ DOT :: map quoted_rune items, @None Error),
            mkParser rest ln false)) as H.
  2:{ rewrite (H [] fuel Hf). cbn [app]. now rewrite <- app_assoc. }
  clear cfg name.
  clear Hf fuel. induction sec as [|c sec IH]; intros name f Hf;
    (destruct f as [|f]; [lia|]).
  - cbn [app map getSectionKey_loop].
    rewrite nextRune_blank; [|assumption|apply blank_hd; [assumption|lia]].
    cbn [eof]. destruct Hb as [Hbs Hbn].
    assert (b <> RBRACKET) as Hbr.
    { intros ->. unfold isspace in Hbs. now rewrite IsSpace_ascii in Hbs. }
    destruct (Z.eqb_spec b RBRACKET) as [|_]; [easy|]. rewrite Hbs.
    apply getExtendedSectionKey_run; [now split|assumption|assumption|cbn in Hf; lia].
  - apply Forall_cons in Hsec as [Hc Hsec]. cbn [app map].
    rewrite getSectionKey_loop_step by now apply header_rune_section_rune.
    rewrite IH; [|assumption|cbn in Hf |- *; lia]. now rewrite <- app_assoc.
Qed.

Lemma parse_loop_key_start fuel cfg name c rs ln :
  isalpha c = true ->
  parse_loop (S fuel) false cfg name (mkParser (c :: rs) ln false)
  = match getValue fuel (name ++ [c]) (mkParser rs ln false) with
    | None => None
    | Some ((_, _, Some err), cf) => Some ((cfg, Some err), cf)
    | Some ((key, value, None), cf) =>
      parse_loop fuel false (<[key := value]> cfg) name cf
    end.
Proof.
  intros Hc. destruct (isalpha_plain _ Hc) as (Hs & Hnl & Hcr & Hh & Hsc & Hlb).
  cbn [parse_loop]. rewrite nextRune_plain by assumption.
  destruct (Z.eqb_spec c NL) as [|_]; [easy|]. rewrite Hs. cbn [orb].
  destruct (Z.eqb_spec c HASH) as [|_]; [easy|].
  destruct (Z.eqb_spec c SEMI) as [|_]; [easy|]. cbn [orb].
  destruct (Z.eqb_spec c LBRACKET) as [|_]; [easy|]. now rewrite Hc.
Qed.

Lemma getValue_name_run krest : forall fuel name tl ln x cf1,
  Forall (fun c => iskeychar c = true) krest ->
  nextRune (mkParser tl ln false) = (x, cf1) ->
  eof cf1 = true \/ iskeychar x = false ->
  (length krest < fuel)%nat ->
  getValue_name fuel name (mkParser (krest ++ tl) ln false)
  = Some ((x, name ++ map lower krest), cf1).
Proof.
  induction krest as [|c krest IH]; intros fuel name tl ln x cf1 HF Hn Hx Hf;
    (destruct fuel as [|fuel]; [cbn in Hf; lia|]); cbn [app getValue_name map].
  - rewrite Hn, app_nil_r. destruct (eof cf1); [reflexivity|].
    destruct Hx as [Hx|Hx]; [easy|now rewrite Hx].
  - apply Forall_cons in HF as [Hk HF].
    destruct (iskeychar_plain _ Hk). rewrite nextRune_plain by assumption.
    cbn [eof]. rewrite Hk. cbn [negb].
    rewrite (IH fuel _ tl ln x cf1); [|assumption..|cbn in Hf; lia].
    now rewrite <- app_assoc.
Qed.

Lemma key_blank_plain b :
  key_blank b ->
  b <> NL /\ b <> CR /\ (b =? SP) || (b =? TAB) = true /\ iskeychar b = false.
Proof.
  intros [-> | ->];
    (split; [lia|split; [lia|split; [reflexivity|now apply iskeychar_false]]]).
Qed.

Lemma getValue_blank_S fuel c cf :
  getValue_blank (S fuel) c cf
  = if (c =? SP) || (c =? TAB)
    then let '(c, cf) := nextRune cf in getValue_blank fuel c cf
    else Some (c, cf).
Proof. reflexivity. Qed.

Lemma getValue_blank_run bl : forall fuel b tl ln e x cf1,
  key_blank b -> Forall key_blank bl ->
  nextRune (mkParser tl ln e) = (x, cf1) -> (x =? SP) || (x =? TAB) = false ->
  (length bl + 1 < fuel)%nat ->
  getValue_blank fuel b (mkParser (bl ++ tl) ln e) = Some (x, cf1).
Proof.
  induction bl as [|b' bl IH]; intros fuel b tl ln e x cf1 Hb HF Hn Hx Hf;
    (destruct fuel as [|fuel]; [cbn in Hf; lia|]);
    destruct (key_blank_plain _ Hb) as (_ & _ & Eb & _);
    cbn [app]; rewrite getValue_blank_S, Eb.
  - rewrite Hn. destruct fuel as [|fuel]; [cbn in Hf; lia|].
    cbn [getValue_blank]. now rewrite Hx.
  - apply Forall_cons in HF as [Hb' HF].
    destruct (key_blank_plain _ Hb') as (? & ? & _ & _).
    rewrite nextRune_plain by assumption.
    apply IH; [assumption..|cbn in Hf; lia].
Qed.

(** The head of a key line: the rest of the key name, then the blanks
    after it, up to the first rune [x] that is neither. *)
Lemma getValue_line krest bl fuel name tl ln x cf1 :
  Forall (fun c => iskeychar c = true) krest -> Forall key_blank bl ->
  nextRune (mkParser tl ln false) = (x, cf1) ->
  (x =? SP) || (x =? TAB) = false -> eof cf1 = true \/ iskeychar x = false ->
  (length krest + length bl + 1 < fuel)%nat ->
  getValue fuel name (mkParser (krest ++ bl ++ tl) ln false)
  = if negb (x =? NL) then
      if negb (x =? EQUALS) then
        Some ((name ++ map lower krest, [], Some ErrInvalidKeyChar), cf1)
      else
        match parseValue fuel cf1 with
        | None => None
        | Some ((value, Some err), cf) => Some ((name ++ map lower krest, [], Some err), cf)
        | Some ((value, None), cf) => Some ((name ++ map lower krest, value, None), cf)
        end
    else Some ((name ++ map lower krest, [], None), cf1).
Proof.
  intros Hk Hbl Hn Hx Hend Hf. unfold getValue.
  destruct bl as [|b bl].
  - cbn [app]. rewrite (getValue_name_run krest fuel name tl ln x cf1);
      [|assumption..|lia].
    destruct fuel as [|fuel]; [lia|]. cbn [getValue_blank]. now rewrite Hx.
  - apply Forall_cons in Hbl as [Hb Hbl].
    destruct (key_blank_plain _ Hb) as (Hb1 & Hb2 & _ & Hb4). cbn [app].
    rewrite (getValue_name_run krest fuel name (b :: bl ++ tl) ln b
               (mkParser (bl ++ tl) ln false));
      [|assumption|now apply nextRune_plain|now right|cbn in Hf; lia].
    rewrite (getValue_blank_run bl fuel b tl ln false x cf1);
      [reflexivity|assumption..|cbn in Hf; lia].
Qed.

(** X6: a key line.  At the start of a statement a letter, key
    characters, blanks and an equals sign make the key: the prefix in
    force, the letter as it was typed, and the key characters
    lower-cased.  What [parseValue] makes of the text after the equals
    sign is stored under it, or its error is returned with the mapping as
    it was. *)
Theorem parse_loop_key_value_line c krest bl vtext fuel cfg name ln :
  isalpha c = true -> Forall (fun c => iskeychar c = true) krest ->
  Forall key_blank bl -> (length krest + length bl + 1 < fuel)%nat ->
  parse_loop (S fuel) false cfg name
    (mkParser (c :: krest ++ bl ++ EQUALS :: vtext) ln false)
  = match parseValue fuel (mkParser vtext ln false) with
    | None => None
    | Some ((_, Some err), cf) => Some ((cfg, Some err), cf)
    | Some ((value, None), cf) =>
      parse_loop fuel false (<[name ++ c :: map lower krest := value]> cfg) name cf
    end.
Proof.
  intros Hc Hk Hbl Hf. rewrite parse_loop_key_start by assumption.
  rewrite (getValue_line krest bl fuel (name ++ [c]) (EQUALS :: vtext) ln EQUALS
             (mkParser vtext ln false));
    [|assumption|assumption|now apply nextRune_plain|reflexivity
     |right; now apply iskeychar_false|assumption].
  cbn [Z.eqb Pos.eqb negb]. rewrite <- app_assoc. cbn [app].
  now destruct (parseValue fuel _) as [[[v [err|]] cf]|].
Qed.

(** X7: a key with no equals sign.  A key name that is followed, after
    blanks if any, by the end of the line or by the end of the input is
    stored with the empty string for a value. *)
Theorem parse_loop_bare_key c krest bl fuel cfg name ln :
  isalpha c = true -> Forall (fun c => iskeychar c = true) krest ->
  Forall key_blank bl -> (length krest + length bl + 1 < fuel)%nat ->
  (forall le rest, line_end le ->
     parse_loop (S fuel) false cfg name
       (mkParser (c :: krest ++ bl ++ le ++ rest) ln false)
     = parse_loop fuel false (<[name ++ c :: map lower krest := []]> cfg) name
         (mkParser rest (uint_inc ln) false))
  /\ parse_loop (S fuel) false cfg name (mkParser (c :: krest ++ bl) ln false)
     = Some ((<[name ++ c :: map lower krest := []]> cfg, None), mkParser [] ln true).
Proof.
  intros Hc Hk Hbl Hf.
  assert (iskeychar NL = false) as Hnl by now apply iskeychar_false.
  split.
  - intros le rest Hle. rewrite parse_loop_key_start by assumption.
    rewrite (getValue_line krest bl fuel (name ++ [c]) (le ++ rest) ln NL
               (mkParser rest (uint_inc ln) false));
      [|assumption|assumption|now apply nextRune_line_end|reflexivity
       |now right|assumption].
    cbn [Z.eqb Pos.eqb negb]. rewrite <- app_assoc. reflexivity.
  - rewrite parse_loop_key_start by assumption.
    replace (krest ++ bl) with (krest ++ bl ++ []) by now rewrite app_nil_r.
    rewrite (getValue_line krest bl fuel (name ++ [c]) [] ln NL
               (mkParser [] ln true));
      [|assumption|assumption|apply nextRune_nil|reflexivity|now left|assumption].
    cbn [Z.eqb Pos.eqb negb]. rewrite <- app_assoc. cbn [app].
    destruct fuel as [|fuel]; [lia|]. cbn [parse_loop]. now rewrite nextRune_nil.
Qed.

Lemma parse_loop_in_comment body : forall fuel cfg name le rest ln,
  one_line body -> line_end le ->
  parse_loop (S (length body) + fuel) true cfg name
    (mkParser (body ++ le ++ rest) ln false)
  = parse_loop fuel false cfg name (mkParser rest (uint_inc ln) false).
Proof.
  induction body as [|c body IH]; intros fuel cfg name le rest ln HF Hle;
    cbn [length Nat.add app parse_loop].
  - now rewrite nextRune_line_end.
  - apply Forall_cons in HF as [[Hn Hr] HF]. rewrite nextRune_plain by assumption.
    destruct (Z.eqb_spec c NL) as [|_]; [easy|]. cbn [orb]. now apply IH.
Qed.

Lemma parse_loop_indent ws : forall fuel cfg name rest ln,
  Forall (fun c => isspace c = true) ws -> one_line ws ->
  parse_loop (length ws + fuel) false cfg name (mkParser (ws ++ rest) ln false)
  = parse_loop fuel false cfg name (mkParser rest ln false).
Proof.
  induction ws as [|c ws IH]; intros fuel cfg name rest ln Hs HF; [reflexivity|].
  apply Forall_cons in Hs as [Hc Hs]. apply Forall_cons in HF as [[Hn Hr] HF].
  cbn [length Nat.add app parse_loop]. rewrite nextRune_plain by assumption.
  destruct (Z.eqb_spec c NL) as [|_]; [easy|]. rewrite Hc. cbn [orb]. now apply IH.
Qed.

Lemma parse_loop_newline fuel cfg name le rest ln :
  line_end le ->
  parse_loop (S fuel) false cfg name (mkParser (le ++ rest) ln false)
  = parse_loop fuel false cfg name (mkParser rest (uint_inc ln) false).
Proof. intros Hle. cbn [parse_loop]. now rewrite nextRune_line_end. Qed.

(** X8: lines that say nothing.  At the start of a statement the driver
    passes over white space, over the end of a line, and over a comment
    (a hash or a semicolon and all that follows up to the end of the
    line, whatever it is: brackets, quotes and backslashes included);
    the mapping and the prefix in force stay as they are and each line
    end counts one line. *)
Theorem parse_loop_skips fuel cfg name rest ln :
  (forall ws, Forall (fun c => isspace c = true) ws -> one_line ws ->
     parse_loop (length ws + fuel) false cfg name (mkParser (ws ++ rest) ln false)
     = parse_loop fuel false cfg name (mkParser rest ln false))
  /\ (forall le, line_end le ->
     parse_loop (S fuel) false cfg name (mkParser (le ++ rest) ln false)
     = parse_loop fuel false cfg name (mkParser rest (uint_inc ln) false))
  /\ (forall c body le, c = HASH \/ c = SEMI -> one_line body -> line_end le ->
     parse_loop (S (S (length body)) + fuel) false cfg name
       (mkParser (c :: body ++ le ++ rest) ln false)
     = parse_loop fuel false cfg name (mkParser rest (uint_inc ln) false)).
Proof.
  split; [|split].
  - intros ws Hs HF. now apply parse_loop_indent.
  - intros le Hle. now apply parse_loop_newline.
  - intros c body le Hc HF Hle.
    change (S (S (length body)) + fuel)%nat with (S (S (length body) + fuel)).
    rewrite (eq_refl : parse_loop (S (S (length body) + fuel)) false cfg name
               (mkParser (c :: body ++ le ++ rest) ln false)
             = let '(c1, cf) := nextRune (mkParser (c :: body ++ le ++ rest) ln false) in
               _).
    rewrite nextRune_plain by (destruct Hc as [->| ->]; lia).
    replace (c =? NL) with false by (destruct Hc as [->| ->]; reflexivity).
    replace (isspace c) with false
      by (unfold isspace; destruct Hc as [->| ->]; now rewrite IsSpace_ascii).
    replace ((c =? HASH) || (c =? SEMI)) with true
      by (destruct Hc as [->| ->]; reflexivity).
    cbn [orb]. now apply parse_loop_in_comment.
Qed.

Lemma parseValue_loop_in_comment body : forall fuel quote space value le rest ln e,
  one_line body -> line_end le ->
  parseValue_loop (S (length body) + fuel) quote true space value
    (mkParser (body ++ le ++ rest) ln e)
  = if quote
    then Some (([], Some ErrUnfinishedQuote), mkParser rest (uint_dec (uint_inc ln)) e)
    else Some ((value, None), mkParser rest (uint_inc ln) e).
Proof.
  induction body as [|c body IH]; intros fuel quote space value le rest ln e HF Hle;
    cbn [length Nat.add app parseValue_loop].
  - rewrite nextRune_line_end by assumption. cbn [Z.eqb Pos.eqb].
    now destruct quote.
  - apply Forall_cons in HF as [[Hn Hr] HF]. rewrite nextRune_plain by assumption.
    destruct (Z.eqb_spec c NL) as [|_]; [easy|]. now apply IH.
Qed.

Lemma parseValue_loop_S fuel quote comment space value cf :
  parseValue_loop (S fuel) quote comment space value cf
  = let '(c, cf) := nextRune cf in
    if c =? NL then
      if quote then
        Some (([], Some ErrUnfinishedQuote), set_linenr (uint_dec (linenr cf)) cf)
      else Some ((value, None), cf)
    else if comment then parseValue_loop fuel quote comment space value cf
    else if isspace c && negb quote then
      parseValue_loop fuel quote comment
        (if (0 <? length value)%nat then S space else space) value cf
    else if negb quote && ((c =? SEMI) || (c =? HASH)) then
      parseValue_loop fuel quote true space value cf
    else
      let value := value ++ repeat SP space in
      if c =? BACKSLASH then
        let '(c, cf) := nextRune cf in
        if c =? NL then parseValue_loop fuel quote comment O value cf
        else if c =? LOWER_T then parseValue_loop fuel quote comment O (value ++ [TAB]) cf
        else if c =? LOWER_B then parseValue_loop fuel quote comment O (value ++ [BSP]) cf
        else if c =? LOWER_N then parseValue_loop fuel quote comment O (value ++ [NL]) cf
        else Some (([], Some ErrInvalidEscapeSequence), cf)
      else if c =? DQUOTE then parseValue_loop fuel (negb quote) comment O value cf
      else parseValue_loop fuel quote comment O (value ++ [c]) cf.
Proof. reflexivity. Qed.

Lemma mark_not_space c : c = SEMI \/ c = HASH -> isspace c = false.
Proof. unfold isspace. intros [->| ->]; now rewrite IsSpace_ascii. Qed.

(** X9: a comment after a value.  Outside quotes a semicolon or a hash
    ends the value: what was gathered is returned, the blanks pending in
    front of the mark are dropped, and the rest of the line is not looked
    at.  Inside quotes the same rune is part of the value. *)
Theorem parseValue_comment c fuel space value rest ln e :
  c = SEMI \/ c = HASH ->
  (forall body le, one_line body -> line_end le ->
     parseValue_loop (S (S (length body)) + fuel) false false space value
       (mkParser (c :: body ++ le ++ rest) ln e)
     = Some ((value, None), mkParser rest (uint_inc ln) e))
  /\ parseValue_loop (S fuel) true false space value (mkParser (c :: rest) ln e)
     = parseValue_loop fuel true false 0 (value ++ repeat SP space ++ [c])
         (mkParser rest ln e).
Proof.
  intros Hc. pose proof (mark_not_space _ Hc) as Hs.
  assert (c <> NL /\ c <> CR /\ c <> BACKSLASH /\ c <> DQUOTE) as (H1 & H2 & H3 & H4)
    by (destruct Hc as [->| ->]; lia).
  assert ((c =? SEMI) || (c =? HASH) = true) as Hm
    by (destruct Hc as [->| ->]; reflexivity).
  split.
  - intros body le HF Hle.
    change (S (S (length body)) + fuel)%nat with (S (S (length body) + fuel)).
    rewrite parseValue_loop_S, nextRune_plain by assumption.
    destruct (Z.eqb_spec c NL) as [|_]; [easy|]. rewrite Hs, Hm. cbn [andb negb].
    now rewrite parseValue_loop_in_comment.
  - rewrite parseValue_loop_S, nextRune_plain by assumption.
    destruct (Z.eqb_spec c NL) as [|_]; [easy|]. rewrite Hs. cbn [andb negb].
    destruct (Z.eqb_spec c BACKSLASH) as [|_]; [easy|].
    destruct (Z.eqb_spec c DQUOTE) as [|_]; [easy|]. now rewrite <- app_assoc.
Qed.

Lemma nextRune_literal c rs ln e :
  c <> NL -> c <> CR \/ hd 0 rs <> NL ->
  nextRune (mkParser (c :: rs) ln e) = (c, mkParser rs ln e).
Proof.
  intros Hc [Hr|Hh]; [now apply nextRune_plain|now apply nextRune_keep].
Qed.

Lemma parseValue_loop_in_quotes q : forall fuel value tl ln e,
  quoted_literal q -> one_line q \/ hd 0 tl <> NL ->
  parseValue_loop (length q + fuel) true false 0 value (mkParser (q ++ tl) ln e)
  = parseValue_loop fuel true false 0 (value ++ q) (mkParser tl ln e).
Proof.
  induction q as [|c q IH]; intros fuel value tl ln e HF Hcr.
  - cbn. now rewrite app_nil_r.
  - apply Forall_cons in HF as [(Hn & Hq & Hb) HF].
    cbn [length Nat.add app]. rewrite parseValue_loop_S.
    rewrite nextRune_literal; [|assumption|].
    2:{ destruct Hcr as [Hcr|Hcr].
        - left. now apply Forall_cons in Hcr as [[_ ?] _].
        - right. destruct q as [|c' q]; [exact Hcr|].
          apply Forall_cons in HF as [(? & _) _]. assumption. }
    destruct (Z.eqb_spec c NL) as [|_]; [easy|].
    rewrite andb_false_r. cbn [negb andb repeat].
    destruct (Z.eqb_spec c BACKSLASH) as [|_]; [easy|].
    destruct (Z.eqb_spec c DQUOTE) as [|_]; [easy|]. rewrite app_nil_r.
    rewrite IH; [now rewrite <- app_assoc|assumption|].
    destruct Hcr as [Hcr|Hcr]; [left; now apply Forall_cons in Hcr as [_ ?]|now right].
Qed.

Lemma parseValue_loop_open_quote fuel space value rs ln e :
  parseValue_loop (S fuel) false false space value (mkParser (DQUOTE :: rs) ln e)
  = parseValue_loop fuel true false 0 (value ++ repeat SP space) (mkParser rs ln e).
Proof.
  rewrite parseValue_loop_S, nextRune_plain by lia. cbn [Z.eqb Pos.eqb].
  unfold isspace. rewrite IsSpace_ascii by lia. reflexivity.
Qed.

(** X10: quoted text in a value.  Between double quotes every rune
    other than the newline, the double quote and the backslash is taken
    as it is (white space, semicolons and hashes included), after the
    blanks pending in front of the opening quote; the quotes themselves
    are dropped.  A line that ends with the quotes still open fails with
    [ErrUnfinishedQuote], and the line just counted is taken back. *)
Theorem parseValue_quoted q fuel space value rest ln e :
  quoted_literal q ->
  parseValue_loop (S (S (length q)) + fuel) false false space value
    (mkParser (DQUOTE :: q ++ DQUOTE :: rest) ln e)
  = parseValue_loop fuel false false 0 (value ++ repeat SP space ++ q)
      (mkParser rest ln e)
  /\ (forall le, one_line q -> line_end le ->
      parseValue_loop (S (S (length q)) + fuel) false false space value
        (mkParser (DQUOTE :: q ++ le ++ rest) ln e)
      = Some (([], Some ErrUnfinishedQuote),
              mkParser rest (uint_dec (uint_inc ln)) e)).
Proof.
  intros HF. split.
  - replace (S (S (length q)) + fuel)%nat with (S (length q + S fuel)) by lia.
    rewrite parseValue_loop_open_quote.
    rewrite parseValue_loop_in_quotes; [|assumption|right; cbn; lia].
    rewrite parseValue_loop_S, nextRune_plain by lia. cbn [Z.eqb Pos.eqb].
    unfold isspace. rewrite IsSpace_ascii by lia. cbn [ascii_space Z.eqb Pos.eqb orb andb negb repeat].
    now rewrite app_nil_r, <- app_assoc.
  - intros le Hq Hle.
    replace (S (S (length q)) + fuel)%nat with (S (length q + S fuel)) by lia.
    rewrite parseValue_loop_open_quote.
    rewrite parseValue_loop_in_quotes; [|assumption|now left].
    rewrite parseValue_loop_S, nextRune_line_end by assumption. reflexivity.
Qed.

(** X11: escapes in a value, in or out of quotes.  A backslash and [t],
    [b] or [n] add a tab, a backspace or a newline after the pending
    blanks; a backslash at the end of a line joins the next line to the
    value and counts the line; a backslash before any other rune, the
    double quote and the backslash among them, fails with
    [ErrInvalidEscapeSequence]. *)
Theorem parseValue_escapes fuel quote space value rest ln e :
  (forall x d, (x, d) ∈ [(LOWER_T, TAB); (LOWER_B, BSP); (LOWER_N, NL)] ->
     parseValue_loop (S fuel) quote false space value
       (mkParser (BACKSLASH :: x :: rest) ln e)
     = parseValue_loop fuel quote false 0 (value ++ repeat SP space ++ [d])
         (mkParser rest ln e))
  /\ (forall le, line_end le ->
     parseValue_loop (S fuel) quote false space value
       (mkParser (BACKSLASH :: le ++ rest) ln e)
     = parseValue_loop fuel quote false 0 (value ++ repeat SP space)
         (mkParser rest (uint_inc ln) e))
  /\ (forall x, x <> NL -> x <> LOWER_T -> x <> LOWER_B -> x <> LOWER_N ->
     x <> CR \/ hd 0 rest <> NL ->
     parseValue_loop (S fuel) quote false space value
       (mkParser (BACKSLASH :: x :: rest) ln e)
     = Some (([], Some ErrInvalidEscapeSequence), mkParser rest ln e)).
Proof.
  assert (forall tl, parseValue_loop (S fuel) quote false space value
                       (mkParser (BACKSLASH :: tl) ln e)
    = let value := value ++ repeat SP space in
      let '(c, cf) := nextRune (mkParser tl ln e) in
      if c =? NL then parseValue_loop fuel quote false O value cf
      else if c =? LOWER_T then parseValue_loop fuel quote false O (value ++ [TAB]) cf
      else if c =? LOWER_B then parseValue_loop fuel quote false O (value ++ [BSP]) cf
      else if c =? LOWER_N then parseValue_loop fuel quote false O (value ++ [NL]) cf
      else Some (([], Some ErrInvalidEscapeSequence), cf)) as Hstep.
  { intros tl. rewrite parseValue_loop_S, nextRune_plain by lia.
    cbn [Z.eqb Pos.eqb]. unfold isspace. rewrite IsSpace_ascii by lia.
    cbn [ascii_space Z.eqb Pos.eqb orb andb]. now rewrite andb_false_r. }
  split; [|split].
  - intros x d Hx. rewrite Hstep. cbn zeta.
    apply elem_of_cons in Hx as [[= -> ->]|Hx];
      [|apply elem_of_cons in Hx as [[= -> ->]|Hx];
        [|apply list_elem_of_singleton in Hx as [= -> ->]]];
      rewrite nextRune_plain by lia; cbn [Z.eqb Pos.eqb]; now rewrite <- app_assoc.
  - intros le Hle. rewrite Hstep. cbn zeta.
    now rewrite nextRune_line_end.
  - intros x H1 H2 H3 H4 Hcr. rewrite Hstep. cbn zeta.
    rewrite nextRune_literal by assumption.
    destruct (Z.eqb_spec x NL) as [|_]; [easy|].
    destruct (Z.eqb_spec x LOWER_T) as [|_]; [easy|].
    destruct (Z.eqb_spec x LOWER_B) as [|_]; [easy|].
    now destruct (Z.eqb_spec x LOWER_N) as [|_].
Qed.

Lemma map_lower_fixed rest :
  Forall (fun c => iskeychar c = true /\ lower c = c) rest ->
  map lower rest = rest /\ Forall (fun c => iskeychar c = true) rest.
Proof.
  induction 1 as [|c rest [Hk Hl] _ [IH1 IH2]]; [now split|].
  cbn [map]. rewrite Hl, IH1. split; [reflexivity|now constructor].
Qed.

(** One serialized line, read with a prefix in force. *)
Lemma parse_loop_entry_under k v fuel cfg name rest ln :
  plain_key k -> plain_value v ->
  (length k + length v + 3 < fuel)%nat ->
  parse_loop (S fuel) false cfg name
    (mkParser (k ++ runes_of " = " ++ v ++ NL :: rest) ln false)
  = parse_loop fuel false (<[name ++ k := v]> cfg) name
      (mkParser rest (uint_inc ln) false).
Proof.
  intros Hk Hv Hf. destruct k as [|c krest]; [easy|]. destruct Hk as [Hc Hrest].
  apply map_lower_fixed in Hrest as [Hfix Hkc]. cbn in Hf.
  change (runes_of " = ") with ([SP] ++ EQUALS :: [SP]).
  rewrite <- !app_assoc. cbn [app].
  change (c :: krest ++ SP :: EQUALS :: SP :: v ++ NL :: rest)
    with (c :: krest ++ [SP] ++ EQUALS :: SP :: v ++ NL :: rest).
  rewrite parse_loop_key_start by assumption.
  rewrite (getValue_line krest [SP] fuel (name ++ [c]) (EQUALS :: SP :: v ++ NL :: rest)
             ln EQUALS (mkParser (SP :: v ++ NL :: rest) ln false));
    [|assumption|repeat constructor|now apply nextRune_plain|reflexivity
     |right; now apply iskeychar_false|cbn; lia].
  cbn [Z.eqb Pos.eqb negb].
  rewrite parseValue_plain_value; [|assumption|lia].
  rewrite Hfix, <- app_assoc. reflexivity.
Qed.

Lemma parse_loop_entries l : forall fuel cfg name ln,
  Forall (fun kv => plain_key kv.1 /\ plain_value kv.2) l ->
  (length (serialize l) + 2 <= fuel)%nat ->
  exists ln',
    parse_loop fuel false cfg name (mkParser (serialize l) ln false)
    = Some ((foldl put cfg (under name <$> l), None), mkParser [] ln' true).
Proof.
  induction l as [|[k v] l IH]; intros fuel cfg name ln HF Hf.
  - destruct fuel as [|fuel]; [lia|]. exists ln. reflexivity.
  - apply Forall_cons in HF as [[Hk Hv] HF]. cbn [fst snd] in *.
    rewrite serialize_cons in Hf |- *. cbn [fst snd] in *.
    rewrite !length_app in Hf. cbn [length runes_of] in Hf.
    destruct fuel as [|fuel]; [lia|].
    rewrite parse_loop_entry_under; [|assumption|assumption|lia].
    rewrite fmap_cons. cbn [foldl]. apply IH; [assumption|lia].
Qed.

Lemma foldl_put_other (l : list (list Z * list Z)) : forall cfg k,
  k ∉ l.*1 -> foldl put cfg l !! k = cfg !! k.
Proof.
  induction l as [|[k' v'] l IH]; intros cfg k Hk; [reflexivity|].
  rewrite fmap_cons in Hk. apply not_elem_of_cons in Hk as [Hne Hk].
  cbn [foldl]. rewrite IH by assumption. unfold put. cbn [fst snd].
  now apply lookup_insert_ne.
Qed.

Lemma under_nil (l : list (list Z * list Z)) : under [] <$> l = l.
Proof.
  induction l as [|[k v] l IH]; [reflexivity|].
  rewrite fmap_cons, IH. reflexivity.
Qed.

(** X12: the lines of a file are taken in order, and the last one wins.
    Lines [key = value] with keys and values that need no quoting parse to
    the mapping obtained by storing the entries one after the other; so a
    key that occurs more than once ends up with the value of its last
    line. *)
Theorem Parse_lines_in_order l :
  Forall (fun kv => plain_key kv.1 /\ plain_value kv.2) l ->
  (exists ln, Parse (serialize l) = Some (foldl put ∅ l, ln, None))
  /\ (forall l1 k v l2, l = l1 ++ (k, v) :: l2 -> k ∉ l2.*1 ->
      foldl put ∅ l !! k = Some v).
Proof.
  intros HF. split.
  - unfold Parse, parse.
    destruct (parse_loop_entries l (fuel_for (mkParser (serialize l) 1 false)) ∅ [] 1 HF)
      as [ln' ->]; [unfold fuel_for; cbn; lia|].
    exists ln'. now rewrite under_nil.
  - intros l1 k v l2 -> Hk. rewrite foldl_app. cbn [foldl].
    rewrite foldl_put_other by assumption. unfold put. cbn [fst snd].
    apply lookup_insert_eq.
Qed.

(** X13: entries written under a section header.  A header line with a
    plain section name followed by lines [key = value] parses to the
    mapping whose keys are the lower-cased section name, a dot, and the
    key of each line. *)
Theorem Parse_serialize_section sec l :
  Forall header_rune sec ->
  Forall (fun kv => plain_key kv.1 /\ plain_value kv.2) l ->
  exists ln,
    Parse (serialize_section sec l)
    = Some (foldl put ∅ (under (map lower sec ++ [DOT]) <$> l), ln, None).
Proof.
  intros Hsec HF. unfold Parse, parse, serialize_section, fuel_for.
  cbn [runes length]. rewrite length_app. cbn [length].
  replace (S (length sec + S (S (length (serialize l)))) + 3)%nat
    with (S (S (length sec + length (serialize l) + 4))) by lia.
  rewrite parse_loop_open_bracket. unfold getSectionKey.
  rewrite getSectionKey_loop_plain; [|assumption|lia]. cbn [app].
  change (NL :: serialize l) with ([NL] ++ serialize l).
  rewrite parse_loop_newline by now left.
  destruct (parse_loop_entries l (length sec + length (serialize l) + 4) ∅
              (map lower sec ++ [DOT]) (uint_inc 1) HF) as [ln' ->]; [lia|].
  now exists ln'.
Qed.

Lemma getSectionKey_loop_to_extended sec : forall f name tl ln b cf1,
  Forall header_rune sec ->
  nextRune (mkParser tl ln false) = (b, cf1) -> isspace b = true -> eof cf1 = false ->
  getSectionKey_loop (length sec + S f) name (mkParser (sec ++ tl) ln false)
  = getExtendedSectionKey f (name ++ map lower sec) b cf1.
Proof.
  induction sec as [|c sec IH]; intros f name tl ln b cf1 HF Hn Hb He.
  - cbn [length Nat.add app map getSectionKey_loop]. rewrite Hn, He, app_nil_r.
    assert (b <> RBRACKET) as Hbr.
    { intros ->. unfold isspace in Hb. now rewrite IsSpace_ascii in Hb. }
    destruct (Z.eqb_spec b RBRACKET) as [|_]; [easy|]. now rewrite Hb.
  - apply Forall_cons in HF as [Hc HF]. cbn [length Nat.add app map].
    rewrite getSectionKey_loop_step by now apply header_rune_section_rune.
    rewrite (IH f _ tl ln b cf1) by assumption. now rewrite <- app_assoc.
Qed.

Lemma getExtendedSectionKey_space_newline ws : forall fuel b le rest ln e,
  b <> NL -> Forall blank ws -> one_line ws -> line_end le ->
  (length ws + 1 < fuel)%nat ->
  getExtendedSectionKey_space fuel b (mkParser (ws ++ le ++ rest) ln e)
  = Some (Return ErrSectionNewLine, mkParser rest (uint_dec (uint_inc ln)) e).
Proof.
  induction ws as [|w ws IH]; intros fuel b le rest ln e Hb HF Hl Hle Hf;
    (destruct fuel as [|fuel]; [cbn in Hf; lia|]);
    cbn [app getExtendedSectionKey_space];
    (destruct (Z.eqb_spec b NL) as [|_]; [easy|]).
  - rewrite nextRune_line_end by assumption. rewrite isspace_NL. cbn [negb].
    destruct fuel as [|fuel]; [cbn in Hf; lia|]. reflexivity.
  - apply Forall_cons in HF as [[Hws Hwn] HF]. apply Forall_cons in Hl as [[_ Hwr] Hl].
    rewrite nextRune_plain by assumption. rewrite Hws. cbn [negb].
    apply IH; [assumption..|cbn in Hf; lia].
Qed.

(** X14: faults in a section header.  After a plain section name,
    - a rune that is neither white space, nor the closing bracket, nor a
      key character or a dot fails with [ErrInvalidSectionChar];
    - white space followed by anything but a double quote fails with
      [ErrMissingStartQuote];
    - the end of the line, right after the name or after white space,
      fails with [ErrSectionNewLine], and the line just counted is taken
      back;
    - a quoted text followed by anything but the closing bracket, white
      space included, fails with [ErrMissingClosingBracket].
    Each time the mapping gathered so far is returned unchanged. *)
Theorem section_header_faults sec fuel cfg name ln :
  Forall header_rune sec ->
  (forall x rest, isspace x = false -> x <> RBRACKET -> iskeychar x = false -> x <> DOT ->
     parse_loop (S (length sec + S fuel)) false cfg name
       (mkParser (LBRACKET :: sec ++ x :: rest) ln false)
     = Some ((cfg, Some ErrInvalidSectionChar), mkParser rest ln false))
  /\ (forall b ws x rest, blank b -> Forall blank ws -> isspace x = false ->
     x <> DQUOTE -> (length ws + 1 < fuel)%nat ->
     parse_loop (S (length sec + S fuel)) false cfg name
       (mkParser (LBRACKET :: sec ++ b :: ws ++ x :: rest) ln false)
     = Some ((cfg, Some ErrMissingStartQuote), mkParser rest ln false))
  /\ (forall ws le rest, Forall blank ws -> one_line ws -> line_end le ->
     (length ws + 1 < fuel)%nat ->
     parse_loop (S (length sec + S fuel)) false cfg name
       (mkParser (LBRACKET :: sec ++ ws ++ le ++ rest) ln false)
     = Some ((cfg, Some ErrSectionNewLine),
             mkParser rest (uint_dec (uint_inc ln)) false))
  /\ (forall b ws items x rest, blank b -> Forall blank ws -> Forall quoted_ok items ->
     x <> RBRACKET -> x <> NL -> x <> CR \/ hd 0 rest <> NL ->
     (length ws + length items + 1 < fuel)%nat ->
     parse_loop (S (length sec + S fuel)) false cfg name
       (mkParser (LBRACKET :: sec ++ b :: ws ++ DQUOTE :: flat_map quoted_text items
                    ++ DQUOTE :: x :: rest) ln false)
     = Some ((cfg, Some ErrMissingClosingBracket), mkParser rest ln false)).
Proof.
  intros Hsec.
  assert (forall b tl, blank b -> hd 0 tl <> NL ->
            getSectionKey (length sec + S fuel) (mkParser (sec ++ b :: tl) ln false)
            = getExtendedSectionKey fuel (map lower sec) b (mkParser tl ln false))
    as Hext.
  { intros b tl Hb Hh. unfold getSectionKey.
    rewrite (getSectionKey_loop_to_extended sec fuel [] (b :: tl) ln b
               (mkParser tl ln false));
      [reflexivity|assumption|now apply nextRune_blank|apply Hb|reflexivity]. }
  split; [|split; [|split]].
  - intros x rest Hs Hb Hk Hd. rewrite parse_loop_open_bracket. unfold getSectionKey.
    assert (forall nm, getSectionKey_loop (length sec + S fuel) nm
                         (mkParser (sec ++ x :: rest) ln false)
                       = Some (([], Some ErrInvalidSectionChar), mkParser rest ln false))
      as H; [|now rewrite H].
    clear Hext. induction sec as [|c sec IH]; intros nm.
    + cbn [length Nat.add app getSectionKey_loop].
      rewrite nextRune_nonspace by assumption. cbn [eof].
      destruct (Z.eqb_spec x RBRACKET) as [|_]; [easy|]. rewrite Hs, Hk.
      now destruct (Z.eqb_spec x DOT) as [|_].
    + apply Forall_cons in Hsec as [Hc Hsec]. cbn [length Nat.add app].
      rewrite getSectionKey_loop_step by now apply header_rune_section_rune.
      now apply IH.
  - intros b ws x rest Hb Hws Hx Hq Hf. rewrite parse_loop_open_bracket.
    assert (x <> NL) as Hxn by (intros ->; now rewrite isspace_NL in Hx).
    rewrite Hext by auto using blank_hd. unfold getExtendedSectionKey.
    rewrite getExtendedSectionKey_space_run by assumption.
    now destruct (Z.eqb_spec x DQUOTE) as [|_].
  - intros ws le rest Hws Hl Hle Hf. rewrite parse_loop_open_bracket.
    destruct ws as [|b ws].
    + unfold getSectionKey. cbn [app].
      rewrite (getSectionKey_loop_to_extended sec fuel [] (le ++ rest) ln NL
                 (mkParser rest (uint_inc ln) false));
        [|assumption|now apply nextRune_line_end|apply isspace_NL|reflexivity].
      destruct fuel as [|fuel]; [cbn in Hf; lia|]. reflexivity.
    + apply Forall_cons in Hws as [Hb Hws]. apply Forall_cons in Hl as [[Hbn Hbr] Hl].
      unfold getSectionKey. cbn [app].
      rewrite (getSectionKey_loop_to_extended sec fuel [] (b :: ws ++ le ++ rest) ln b
                 (mkParser (ws ++ le ++ rest) ln false));
        [|assumption|now apply nextRune_plain|apply Hb|reflexivity].
      unfold getExtendedSectionKey.
      rewrite getExtendedSectionKey_space_newline;
        [reflexivity|assumption..|cbn in Hf; lia].
  - intros b ws items x rest Hb Hws Hit Hx Hxn Hcr Hf. rewrite parse_loop_open_bracket.
    rewrite Hext; [|assumption|apply blank_hd; [assumption|lia]].
    unfold getExtendedSectionKey.
    rewrite getExtendedSectionKey_space_run;
      [|assumption|assumption|unfold isspace; now rewrite IsSpace_ascii|lia].
    cbn [Z.eqb Pos.eqb negb].
    rewrite getExtendedSectionKey_quoted_items; [|assumption|lia].
    rewrite nextRune_literal by assumption.
    now destruct (Z.eqb_spec x RBRACKET) as [|_].
Qed.

End Statements.

(** * Section headers that meet the end of the input: which error *)

Section HeaderEnds.
Context {U : UnicodeTables}.

Lemma getSectionKey_to_extended sec b tl fuel ln :
  Forall header_rune sec -> blank b -> hd 0 tl <> NL ->
  getSectionKey (length sec + S fuel) (mkParser (sec ++ b :: tl) ln false)
  = getExtendedSectionKey fuel (map lower sec) b (mkParser tl ln false).
Proof.
  intros Hsec Hb Hh. unfold getSectionKey.
  rewrite (getSectionKey_loop_to_extended sec fuel [] (b :: tl) ln b
             (mkParser tl ln false));
    [reflexivity|assumption|now apply nextRune_blank|apply Hb|reflexivity].
Qed.

Lemma blanks_hd ws : Forall blank ws -> hd 0 ws <> NL.
Proof. intros [|c ws' [_ Hc] _]; cbn; [lia|exact Hc]. Qed.

(** The white space after the name runs into the end of the input. *)
Lemma getExtendedSectionKey_space_end ws : forall fuel b ln e,
  b <> NL -> Forall blank ws -> (length ws + 1 < fuel)%nat ->
  getExtendedSectionKey_space fuel b (mkParser ws ln e)
  = Some (Return ErrSectionNewLine, mkParser [] (uint_dec ln) true).
Proof.
  induction ws as [|w ws IH]; intros fuel b ln e Hb HF Hf;
    (destruct fuel as [|fuel]; [cbn in Hf; lia|]);
    cbn [getExtendedSectionKey_space];
    (destruct (Z.eqb_spec b NL) as [|_]; [easy|]).
  - rewrite nextRune_nil, isspace_NL. cbn [negb].
    destruct fuel as [|fuel]; [cbn in Hf; lia|]. reflexivity.
  - apply Forall_cons in HF as [Hw HF].
    rewrite nextRune_blank; [|assumption|now apply blanks_hd].
    destruct Hw as [Hws Hwn]. rewrite Hws. cbn [negb].
    apply IH; [assumption..|cbn in Hf; lia].
Qed.

Lemma getExtendedSectionKey_quoted_prefix items : forall fuel name tl ln e,
  Forall quoted_ok items ->
  getExtendedSectionKey_quoted (length items + fuel) name
    (mkParser (flat_map quoted_text items ++ tl) ln e)
  = getExtendedSectionKey_quoted fuel (name ++ map quoted_rune items) (mkParser tl ln e).
Proof.
  induction items as [|i items IH]; intros fuel name tl ln e HF.
  - cbn. now rewrite app_nil_r.
  - apply Forall_cons in HF as [(Hnl & Hcr & Hi) HF].
    cbn [flat_map map length Nat.add]. rewrite <- app_assoc.
    replace (name ++ quoted_rune i :: map quoted_rune items)
      with ((name ++ [quoted_rune i]) ++ map quoted_rune items)
      by now rewrite <- app_assoc.
    destruct i as [c|c]; cbn [quoted_text quoted_rune app] in *.
    + destruct Hi as [Hq Hb]. cbn [getExtendedSectionKey_quoted].
      rewrite nextRune_plain by assumption.
      destruct (Z.eqb_spec c NL) as [|_]; [easy|].
      destruct (Z.eqb_spec c DQUOTE) as [|_]; [easy|].
      destruct (Z.eqb_spec c BACKSLASH) as [|_]; [easy|].
      now apply IH.
    + rewrite getExtendedSectionKey_quoted_escape by easy. now apply IH.
Qed.

(** The quoted text runs into the end of the input, after a whole item
    or after a backslash. *)
Lemma getExtendedSectionKey_quoted_end items fuel name tl ln e :
  Forall quoted_ok items -> tl = [] \/ tl = [BACKSLASH] -> (length items < fuel)%nat ->
  getExtendedSectionKey_quoted fuel name (mkParser (flat_map quoted_text items ++ tl) ln e)
  = Some (Return ErrSectionNewLine, mkParser [] (uint_dec ln) true).
Proof.
  intros HF Htl Hf.
  replace fuel with (length items + S (fuel - length items - 1))%nat by lia.
  rewrite getExtendedSectionKey_quoted_prefix by assumption.
  cbn [getExtendedSectionKey_quoted]. destruct Htl as [-> | ->].
  - now rewrite nextRune_nil.
  - rewrite nextRune_plain by lia. cbn [Z.eqb Pos.eqb]. now rewrite nextRune_nil.
Qed.

Lemma quoted_text_length items : (length items <= length (flat_map quoted_text items))%nat.
Proof.
  induction items as [|[c|c] items IH]; cbn [flat_map quoted_text app length]; lia.
Qed.

(** The three places at which an extended header can meet the end of the
    input, as the driver sees them. *)
Lemma parse_loop_extended_end sec b ws cfg name ln :
  Forall header_rune sec -> blank b -> Forall blank ws ->
  (forall f, (length ws + 2 <= f)%nat ->
     parse_loop (S (length sec + S f)) false cfg name
       (mkParser (LBRACKET :: sec ++ b :: ws) ln false)
     = Some ((cfg, Some ErrSectionNewLine), mkParser [] (uint_dec ln) true))
  /\ (forall items tl f, Forall quoted_ok items -> tl = [] \/ tl = [BACKSLASH] ->
      (length ws + length items + 2 <= f)%nat ->
      parse_loop (S (length sec + S f)) false cfg name
        (mkParser (LBRACKET :: sec ++ b :: ws ++ DQUOTE :: flat_map quoted_text items ++ tl)
           ln false)
      = Some ((cfg, Some ErrSectionNewLine), mkParser [] (uint_dec ln) true))
  /\ (forall items f, Forall quoted_ok items ->
      (length ws + length items + 2 <= f)%nat ->
      parse_loop (S (length sec + S f)) false cfg name
        (mkParser (LBRACKET :: sec ++ b :: ws ++ DQUOTE :: flat_map quoted_text items
                     ++ [DQUOTE]) ln false)
      = Some ((cfg, Some ErrMissingClosingBracket), mkParser [] ln true)).
Proof.
  intros Hsec Hb Hws. split; [|split].
  - intros f Hf. rewrite parse_loop_open_bracket.
    rewrite getSectionKey_to_extended; [|assumption|assumption|now apply blanks_hd].
    unfold getExtendedSectionKey.
    rewrite getExtendedSectionKey_space_end; [reflexivity|apply Hb|assumption|lia].
  - intros items tl f Hit Htl Hf. rewrite parse_loop_open_bracket.
    rewrite getSectionKey_to_extended;
      [|assumption|assumption|apply blank_hd; [assumption|lia]].
    unfold getExtendedSectionKey.
    rewrite getExtendedSectionKey_space_run;
      [|assumption|assumption|unfold isspace; now rewrite IsSpace_ascii|lia].
    cbn [Z.eqb Pos.eqb negb].
    rewrite getExtendedSectionKey_quoted_end; [reflexivity|assumption|assumption|lia].
  - intros items f Hit Hf. rewrite parse_loop_open_bracket.
    rewrite getSectionKey_to_extended;
      [|assumption|assumption|apply blank_hd; [assumption|lia]].
    unfold getExtendedSectionKey.
    rewrite getExtendedSectionKey_space_run;
      [|assumption|assumption|unfold isspace; now rewrite IsSpace_ascii|lia].
    cbn [Z.eqb Pos.eqb negb].
    rewrite getExtendedSectionKey_quoted_items; [|assumption|lia].
    now rewrite nextRune_nil.
Qed.

(** C4, amended.  When the input ends in the plain part of a header
    (after the opening bracket only runes on which the scan goes on) the
    parse fails with [ErrUnexpectedEOF], whatever the driver had
    gathered.  When it ends in the extended form, that is after a plain
    name [sec] and white space [b :: ws], the error depends on the place:
    - in the white space, before the opening quote: [ErrSectionNewLine];
    - in the quoted text, after any number of runes and escapes, or
      right after a backslash: [ErrSectionNewLine];
    - right after the closing quote: [ErrMissingClosingBracket].
    With [ErrSectionNewLine] one is taken off the line counter, with the
    other two it stays.  And whenever [getSectionKey] is left at the end
    of the input, the error is [ErrUnexpectedEOF] if the header had no
    white space, and one of the other two if it had. *)
Theorem section_header_at_end_of_input :
  (forall body, Forall section_rune body ->
     Parse (LBRACKET :: body) = Some (∅, 1, Some ErrUnexpectedEOF)
     /\ forall fuel cfg name ln, (length body + 2 <= fuel)%nat ->
        parse_loop fuel false cfg name (mkParser (LBRACKET :: body) ln false)
        = Some ((cfg, Some ErrUnexpectedEOF), mkParser [] ln true))
  /\ (forall sec b ws, Forall header_rune sec -> blank b -> Forall blank ws ->
      Parse (LBRACKET :: sec ++ b :: ws) = Some (∅, 0, Some ErrSectionNewLine)
      /\ (forall items tl, Forall quoted_ok items -> tl = [] \/ tl = [BACKSLASH] ->
          Parse (LBRACKET :: sec ++ b :: ws ++ DQUOTE :: flat_map quoted_text items ++ tl)
          = Some (∅, 0, Some ErrSectionNewLine))
      /\ (forall items, Forall quoted_ok items ->
          Parse (LBRACKET :: sec ++ b :: ws ++ DQUOTE :: flat_map quoted_text items
                   ++ [DQUOTE])
          = Some (∅, 1, Some ErrMissingClosingBracket))
      /\ (forall fuel cfg name ln items tl,
          Forall quoted_ok items -> tl = [] \/ tl = [BACKSLASH] ->
          (length sec + length ws + length items + 4 <= fuel)%nat ->
          parse_loop fuel false cfg name
            (mkParser (LBRACKET :: sec ++ b :: ws) ln false)
          = Some ((cfg, Some ErrSectionNewLine), mkParser [] (uint_dec ln) true)
          /\ parse_loop fuel false cfg name
               (mkParser (LBRACKET :: sec ++ b :: ws ++ DQUOTE
                            :: flat_map quoted_text items ++ tl) ln false)
             = Some ((cfg, Some ErrSectionNewLine), mkParser [] (uint_dec ln) true)
          /\ parse_loop fuel false cfg name
               (mkParser (LBRACKET :: sec ++ b :: ws ++ DQUOTE
                            :: flat_map quoted_text items ++ [DQUOTE]) ln false)
             = Some ((cfg, Some ErrMissingClosingBracket), mkParser [] ln true)))
  /\ (forall fuel cf r cf',
      eof cf = false -> getSectionKey fuel cf = Some (r, cf') -> eof cf' = true ->
      (Forall (fun c => isspace c = false) (runes cf) ->
       r = ([], Some ErrUnexpectedEOF))
      /\ (Exists (fun c => isspace c = true) (runes cf) ->
          r = ([], Some ErrSectionNewLine) \/ r = ([], Some ErrMissingClosingBracket))).
Proof.
  split; [|split].
  - intros body HF.
    assert (forall fuel cfg name ln, (length body + 2 <= fuel)%nat ->
        parse_loop fuel false cfg name (mkParser (LBRACKET :: body) ln false)
        = Some ((cfg, Some ErrUnexpectedEOF), mkParser [] ln true)) as Hloop.
    { intros fuel cfg name ln Hf. destruct fuel as [|fuel]; [lia|].
      rewrite parse_loop_open_bracket. unfold getSectionKey.
      rewrite getSectionKey_loop_plain_eof; [reflexivity|assumption|lia]. }
    split; [|exact Hloop]. unfold Parse, parse.
    rewrite Hloop; [reflexivity|]. unfold fuel_for. cbn. lia.
  - intros sec b ws Hsec Hb Hws.
    assert (forall fuel cfg name ln items tl,
          Forall quoted_ok items -> tl = [] \/ tl = [BACKSLASH] ->
          (length sec + length ws + length items + 4 <= fuel)%nat ->
          parse_loop fuel false cfg name
            (mkParser (LBRACKET :: sec ++ b :: ws) ln false)
          = Some ((cfg, Some ErrSectionNewLine), mkParser [] (uint_dec ln) true)
          /\ parse_loop fuel false cfg name
               (mkParser (LBRACKET :: sec ++ b :: ws ++ DQUOTE
                            :: flat_map quoted_text items ++ tl) ln false)
             = Some ((cfg, Some ErrSectionNewLine), mkParser [] (uint_dec ln) true)
          /\ parse_loop fuel false cfg name
               (mkParser (LBRACKET :: sec ++ b :: ws ++ DQUOTE
                            :: flat_map quoted_text items ++ [DQUOTE]) ln false)
             = Some ((cfg, Some ErrMissingClosingBracket), mkParser [] ln true)) as Hloop.
    { intros fuel cfg name ln items tl Hit Htl Hf.
      destruct (parse_loop_extended_end sec b ws cfg name ln Hsec Hb Hws)
        as (H1 & H2 & H3).
      replace fuel with (S (length sec + S (fuel - length sec - 2)))%nat by lia.
      split; [apply H1; lia|]. split; [apply H2; [assumption..|lia]|].
      apply H3; [assumption|lia]. }
    assert (forall items, (length items <= length (flat_map quoted_text items))%nat)
      as Hlen by apply quoted_text_length.
    split; [|split; [|split; [|exact Hloop]]].
    + unfold Parse, parse.
      destruct (Hloop (fuel_for (mkParser (LBRACKET :: sec ++ b :: ws) 1 false))
                  ∅ [] 1 [] []) as (E & _); [constructor|now left| |now rewrite E].
      unfold fuel_for. cbn [runes length]. rewrite length_app. cbn [length]. lia.
    + intros items tl Hit Htl. unfold Parse, parse.
      destruct (Hloop (fuel_for (mkParser (LBRACKET :: sec ++ b :: ws ++ DQUOTE
                                   :: flat_map quoted_text items ++ tl) 1 false))
                  ∅ [] 1 items tl) as (_ & E & _);
        [assumption|assumption| |now rewrite E].
      unfold fuel_for. cbn [runes length]. repeat (rewrite !length_app; cbn [length]).
      specialize (Hlen items). lia.
    + intros items Hit. unfold Parse, parse.
      destruct (Hloop (fuel_for (mkParser (LBRACKET :: sec ++ b :: ws ++ DQUOTE
                                   :: flat_map quoted_text items ++ [DQUOTE]) 1 false))
                  ∅ [] 1 items []) as (_ & _ & E);
        [assumption|now left| |now rewrite E].
      unfold fuel_for. cbn [runes length]. repeat (rewrite !length_app; cbn [length]).
      specialize (Hlen items). lia.
  - intros fuel cf r cf' He H He'. unfold getSectionKey in H.
    now apply getSectionKey_loop_eof with fuel [] cf'.
Qed.

End HeaderEnds.

(** * The value of a line, item by item *)

Section ValueItems.
Context {U : UnicodeTables}.























End ValueItems.

(** * The mapping returned with an error *)

Section PartialMapping.
Context {U : UnicodeTables}.










End PartialMapping.


(** * DOS and Unix line ends *)

Section LineEnds.
Context {U : UnicodeTables}.

Lemma unix_length s : (length (unix s) <= length s)%nat.
Proof.
  induction s as [|c s IH]; cbn [unix length]; [lia|].
  destruct (_ && _); cbn [length]; lia.
Qed.

Lemma eof_unix cf : eof (unix_cursor cf) = eof cf.
Proof. reflexivity. Qed.

Lemma nextRune_unix cf c cf1 :
  dos (runes cf) -> nextRune cf = (c, cf1) ->
  nextRune (unix_cursor cf) = (c, unix_cursor cf1) /\ dos (runes cf1).
Proof.
  destruct cf as [[|c0 rs] ln e]; cbn [runes dos]; unfold unix_cursor; cbn [runes linenr eof].
  - rewrite nextRune_nil. intros _ [= <- <-]. cbn. now rewrite nextRune_nil.
  - intros [Hcr Hd]. destruct (Z.eqb_spec c0 CR) as [->|Hne].
    + specialize (Hcr eq_refl). destruct rs as [|c1 rs]; cbn in Hcr; [lia|]. subst c1.
      rewrite nextRune_crlf. intros [= <- <-]. cbn in Hd. destruct Hd as [_ Hd].
      split; [|exact Hd]. cbn. now rewrite nextRune_lf.
    + rewrite nextRune_cons. replace (c0 =? CR) with false by (symmetry; now apply Z.eqb_neq).
      cbn [andb]. intros [= <- <-]. split; [|exact Hd].
      cbn [unix]. replace (c0 =? CR) with false by (symmetry; now apply Z.eqb_neq).
      cbn [andb runes linenr eof]. rewrite nextRune_cons.
      replace (c0 =? CR) with false by (symmetry; now apply Z.eqb_neq). reflexivity.
Qed.

Ltac use_tests :=
  rewrite ?eof_unix;
  repeat match goal with
         | E : ?b = true |- context [?b] => rewrite E
         | E : ?b = false |- context [?b] => rewrite E
         end.

Ltac unix_return Hd En :=
  let En' := fresh "En'" in let Hd1 := fresh "Hd" in
  destruct (nextRune_unix _ _ _ Hd En) as [En' Hd1];
  split; [cbn -[unix_cursor]; rewrite En'; cbn -[unix_cursor]; use_tests; reflexivity
         |exact Hd1].

Ltac unix_again IH Hd En H :=
  let En' := fresh "En'" in let Hd1 := fresh "Hd" in let Hd2 := fresh "Hd" in
  destruct (nextRune_unix _ _ _ Hd En) as [En' Hd1];
  apply IH in H as [H Hd2]; [|exact Hd1];
  split; [cbn -[unix_cursor]; rewrite En'; cbn -[unix_cursor]; use_tests; exact H
         |exact Hd2].

Ltac unix_return2 Hd En En2 :=
  let En' := fresh "En'" in let Hd1 := fresh "Hd" in
  let En2' := fresh "En'" in let Hd2 := fresh "Hd" in
  destruct (nextRune_unix _ _ _ Hd En) as [En' Hd1];
  destruct (nextRune_unix _ _ _ Hd1 En2) as [En2' Hd2];
  split; [cbn -[unix_cursor]; rewrite En'; cbn -[unix_cursor]; use_tests;
          rewrite En2'; cbn -[unix_cursor]; use_tests; reflexivity
         |exact Hd2].

Ltac unix_again2 IH Hd En En2 H :=
  let En' := fresh "En'" in let Hd1 := fresh "Hd" in
  let En2' := fresh "En'" in let Hd2 := fresh "Hd" in let Hd3 := fresh "Hd" in
  destruct (nextRune_unix _ _ _ Hd En) as [En' Hd1];
  destruct (nextRune_unix _ _ _ Hd1 En2) as [En2' Hd2];
  apply IH in H as [H Hd3]; [|exact Hd2];
  split; [cbn -[unix_cursor]; rewrite En'; cbn -[unix_cursor]; use_tests;
          rewrite En2'; cbn -[unix_cursor]; use_tests; exact H
         |exact Hd3].

Lemma getExtendedSectionKey_space_unix fuel :
  forall c, unix_stable (getExtendedSectionKey_space fuel c).
Proof.
  unfold unix_stable.
  induction fuel as [|fuel IH]; intros c cf a cf' Hd H; [discriminate|].
  cbn [getExtendedSectionKey_space] in H. destruct (c =? NL) eqn:Ec.
  { injection H as <- <-. split; [|exact Hd]. cbn. now rewrite Ec. }
  destruct (nextRune cf) as [c1 cf1] eqn:En.
  destruct (negb (isspace c1)) eqn:Es.
  - injection H as <- <-. unix_return Hd En.
  - unix_again IH Hd En H.
Qed.

Lemma getExtendedSectionKey_quoted_unix fuel :
  forall name, unix_stable (getExtendedSectionKey_quoted fuel name).
Proof.
  unfold unix_stable.
  induction fuel as [|fuel IH]; intros name cf a cf' Hd H; [discriminate|].
  cbn [getExtendedSectionKey_quoted] in H.
  destruct (nextRune cf) as [c1 cf1] eqn:En.
  destruct (c1 =? NL) eqn:E1; [injection H as <- <-; unix_return Hd En|].
  destruct (c1 =? DQUOTE) eqn:E2; [injection H as <- <-; unix_return Hd En|].
  destruct (c1 =? BACKSLASH) eqn:E3; [|unix_again IH Hd En H].
  destruct (nextRune cf1) as [c2 cf2] eqn:En2.
  destruct (c2 =? NL) eqn:E4; [injection H as <- <-; unix_return2 Hd En En2|].
  unix_again2 IH Hd En En2 H.
Qed.

Lemma getExtendedSectionKey_unix fuel name c :
  unix_stable (getExtendedSectionKey fuel name c).
Proof.
  intros cf a cf' Hd H. unfold getExtendedSectionKey in H |- *.
  destruct (getExtendedSectionKey_space fuel c cf) as [[[c1|e] cf1]|] eqn:E1;
    [| |discriminate]; apply getExtendedSectionKey_space_unix in E1 as [E1 Hd1];
    try assumption; rewrite E1.
  2:{ now injection H as <- <-. }
  destruct (negb (c1 =? DQUOTE)); [now injection H as <- <-|].
  destruct (getExtendedSectionKey_quoted fuel (name ++ [DOT]) cf1)
    as [[[nm|e] cf2]|] eqn:E2; [| |discriminate];
    apply getExtendedSectionKey_quoted_unix in E2 as [E2 Hd2];
    try assumption; rewrite E2.
  2:{ now injection H as <- <-. }
  destruct (nextRune cf2) as [c3 cf3] eqn:En.
  destruct (nextRune_unix _ _ _ Hd2 En) as [En' Hd3]. rewrite En'.
  destruct (negb (c3 =? RBRACKET)); now injection H as <- <-.
Qed.

Lemma getSectionKey_loop_unix fuel : forall name, unix_stable (getSectionKey_loop fuel name).
Proof.
  unfold unix_stable.
  induction fuel as [|fuel IH]; intros name cf a cf' Hd H; [discriminate|].
  cbn [getSectionKey_loop] in H.
  destruct (nextRune cf) as [c1 cf1] eqn:En.
  destruct (eof cf1) eqn:E1; [injection H as <- <-; unix_return Hd En|].
  destruct (c1 =? RBRACKET) eqn:E2; [injection H as <- <-; unix_return Hd En|].
  destruct (isspace c1) eqn:E3.
  - destruct (nextRune_unix _ _ _ Hd En) as [En' Hd1].
    apply getExtendedSectionKey_unix in H as [H Hd2]; [|exact Hd1].
    split; [|exact Hd2]. cbn -[unix_cursor]. rewrite En'. cbn -[unix_cursor].
    use_tests. exact H.
  - destruct (negb (iskeychar c1) && negb (c1 =? DOT)) eqn:E4;
      [injection H as <- <-; unix_return Hd En|].
    unix_again IH Hd En H.
Qed.

Lemma parseValue_loop_unix fuel :
  forall quote comment space value,
    unix_stable (parseValue_loop fuel quote comment space value).
Proof.
  unfold unix_stable.
  induction fuel as [|fuel IH]; intros quote comment space value cf a cf' Hd H;
    [discriminate|].
  cbn [parseValue_loop] in H.
  destruct (nextRune cf) as [c1 cf1] eqn:En.
  destruct (c1 =? NL) eqn:E1.
  { destruct quote; injection H as <- <-; unix_return Hd En. }
  destruct comment; [unix_again IH Hd En H|].
  destruct (isspace c1 && negb quote) eqn:E2; [unix_again IH Hd En H|].
  destruct (negb quote && ((c1 =? SEMI) || (c1 =? HASH))) eqn:E3;
    [unix_again IH Hd En H|].
  destruct (c1 =? BACKSLASH) eqn:E4.
  - destruct (nextRune cf1) as [c2 cf2] eqn:En2.
    destruct (c2 =? NL) eqn:E5; [unix_again2 IH Hd En En2 H|].
    destruct (c2 =? LOWER_T) eqn:E6; [unix_again2 IH Hd En En2 H|].
    destruct (c2 =? LOWER_B) eqn:E7; [unix_again2 IH Hd En En2 H|].
    destruct (c2 =? LOWER_N) eqn:E8; [unix_again2 IH Hd En En2 H|].
    injection H as <- <-. unix_return2 Hd En En2.
  - destruct (c1 =? DQUOTE) eqn:E5; unix_again IH Hd En H.
Qed.

Lemma getValue_name_unix fuel : forall name, unix_stable (getValue_name fuel name).
Proof.
  unfold unix_stable.
  induction fuel as [|fuel IH]; intros name cf a cf' Hd H; [discriminate|].
  cbn [getValue_name] in H.
  destruct (nextRune cf) as [c1 cf1] eqn:En.
  destruct (eof cf1) eqn:E1; [injection H as <- <-; unix_return Hd En|].
  destruct (negb (iskeychar c1)) eqn:E2; [injection H as <- <-; unix_return Hd En|].
  unix_again IH Hd En H.
Qed.

Lemma getValue_blank_unix fuel : forall c, unix_stable (getValue_blank fuel c).
Proof.
  unfold unix_stable.
  induction fuel as [|fuel IH]; intros c cf a cf' Hd H; [discriminate|].
  cbn [getValue_blank] in H. destruct ((c =? SP) || (c =? TAB)) eqn:Ec.
  - destruct (nextRune cf) as [c1 cf1] eqn:En. unix_again IH Hd En H.
  - injection H as <- <-. split; [|exact Hd]. cbn. now rewrite Ec.
Qed.

Lemma getValue_unix fuel name : unix_stable (getValue fuel name).
Proof.
  intros cf a cf' Hd H. unfold getValue, parseValue in H |- *.
  destruct (getValue_name fuel name cf) as [[[c1 nm] cf1]|] eqn:E1; [|discriminate].
  apply getValue_name_unix in E1 as [E1 Hd1]; [|assumption]. rewrite E1.
  destruct (getValue_blank fuel c1 cf1) as [[c2 cf2]|] eqn:E2; [|discriminate].
  apply getValue_blank_unix in E2 as [E2 Hd2]; [|assumption]. rewrite E2.
  destruct (negb (c2 =? NL)); [|now injection H as <- <-].
  destruct (negb (c2 =? EQUALS)); [now injection H as <- <-|].
  destruct (parseValue_loop fuel false false 0 [] cf2) as [[[v err] cf3]|] eqn:E3;
    [|discriminate].
  apply parseValue_loop_unix in E3 as [E3 Hd3]; [|assumption]. rewrite E3.
  destruct err; now injection H as <- <-.
Qed.

Lemma parse_loop_unix fuel :
  forall comment cfg name, unix_stable (parse_loop fuel comment cfg name).
Proof.
  unfold unix_stable.
  induction fuel as [|fuel IH]; intros comment cfg name cf a cf' Hd H; [discriminate|].
  cbn [parse_loop] in H.
  destruct (nextRune cf) as [c1 cf1] eqn:En.
  destruct (c1 =? NL) eqn:E1.
  { destruct (eof cf1) eqn:E2; [injection H as <- <-; unix_return Hd En|].
    unix_again IH Hd En H. }
  destruct (comment || isspace c1) eqn:E2; [unix_again IH Hd En H|].
  destruct ((c1 =? HASH) || (c1 =? SEMI)) eqn:E3; [unix_again IH Hd En H|].
  destruct (nextRune_unix _ _ _ Hd En) as [En' Hd1].
  destruct (c1 =? LBRACKET) eqn:E4.
  - unfold getSectionKey in H.
    destruct (getSectionKey_loop fuel [] cf1) as [[[nm err] cf2]|] eqn:E5;
      [|discriminate].
    apply getSectionKey_loop_unix in E5 as [E5 Hd2]; [|assumption].
    cbn -[unix_cursor]. rewrite En'. cbn -[unix_cursor]. use_tests.
    unfold getSectionKey. rewrite E5.
    destruct err; [now injection H as <- <-|]. now apply IH in H.
  - destruct (negb (isalpha c1)) eqn:E5.
    { injection H as <- <-. split; [|exact Hd1].
      cbn -[unix_cursor]. rewrite En'. cbn -[unix_cursor]. now use_tests. }
    destruct (getValue fuel (name ++ [c1]) cf1) as [[[[k v] err] cf2]|] eqn:E6;
      [|discriminate].
    apply getValue_unix in E6 as [E6 Hd2]; [|assumption].
    cbn -[unix_cursor]. rewrite En'. cbn -[unix_cursor]. use_tests. rewrite E6.
    destruct err; [now injection H as <- <-|]. now apply IH in H.
Qed.

(** X15: DOS and Unix line ends.  On a text in which every carriage
    return is followed by a newline, [Parse] returns the same mapping,
    the same line number and the same error as on that text with the
    carriage returns removed. *)
Theorem Parse_unix bytes :
  dos bytes -> Parse (unix bytes) = Parse bytes.
Proof.
  intros Hd. unfold Parse.
  destruct (parse_loop_total (fuel_for (mkParser bytes 1 false)) false ∅ []
              (mkParser bytes 1 false)) as ([cfg err] & cf' & E);
    [unfold fuel_for; lia|].
  unfold parse at 2. rewrite E.
  apply parse_loop_unix in E as [E _]; [|exact Hd].
  rewrite <- (parse_fuel_for (fuel_for (mkParser bytes 1 false))).
  - unfold parse. unfold unix_cursor in E. cbn [runes linenr eof] in E. now rewrite E.
  - unfold fuel_for. cbn [runes]. pose proof (unix_length bytes). lia.
Qed.

End LineEnds.

(** * The statements above, on concrete inputs *)

Ltac header_runes :=
  repeat (apply Forall_cons; split; [first [left; reflexivity|right; reflexivity]|]);
  constructor.

Ltac key_runes :=
  repeat (apply Forall_cons; split; [reflexivity|]); constructor.

Ltac blanks :=
  repeat (apply Forall_cons; split; [split; [reflexivity|discriminate]|]); constructor.

Ltac plain_entry :=
  split;
  [split; [reflexivity|repeat (apply Forall_cons; split; [split; reflexivity|]); constructor]
  |split;
   [repeat (apply Forall_cons; split;
            [first [left; reflexivity
                   |right; vm_compute; repeat split; first [reflexivity|discriminate]]|]);
    constructor
   |split; [cbn; lia|discriminate]]].

Lemma error_kinds_witness :
  @getSectionKey ascii_tables 9 (mkParser (tail ex_extended_eof_closed) 1 false)
    = Some (([], Some ErrMissingClosingBracket), mkParser [] 1 true)
  /\ header_error ErrMissingClosingBracket /\ ([] : list Z) = [].
Proof.
  assert (@getSectionKey ascii_tables 9 (mkParser (tail ex_extended_eof_closed) 1 false)
          = Some (([], Some ErrMissingClosingBracket), mkParser [] 1 true)) as HG
    by (vm_compute; reflexivity).
  split; [exact HG|].
  exact (proj1 (@error_kinds ascii_tables 9%nat
                  (mkParser (tail ex_extended_eof_closed) 1 false)) _ _ HG).
Defined.

Lemma Parse_values_quote_free_witness :
  @Parse ascii_tables ex_quoted_blank
    = Some ({[ runes_of "b" := runes_of " x" ]}, 2, None)
  /\ ({[ runes_of "b" := runes_of " x" ]} : gmap (list Z) (list Z)) !! runes_of "b"
     = Some (runes_of " x")
  /\ quote_free (runes_of " x").
Proof.
  assert (@Parse ascii_tables ex_quoted_blank
          = Some ({[ runes_of "b" := runes_of " x" ]}, 2, None)) as HP
    by (vm_compute; reflexivity).
  assert (({[ runes_of "b" := runes_of " x" ]} : gmap (list Z) (list Z)) !! runes_of "b"
          = Some (runes_of " x")) as HL by apply lookup_singleton_eq.
  split; [exact HP|]. split; [exact HL|].
  exact (@Parse_values_quote_free ascii_tables _ _ _ _ _ _ HP HL).
Defined.

Lemma parse_loop_plain_header_witness :
  Forall (@header_rune ascii_tables) (runes_of "Core.x")
  /\ (length (runes_of "Core.x") < 10)%nat
  /\ @parse_loop ascii_tables 11 false ∅ (runes_of "old.")
       (mkParser (LBRACKET :: runes_of "Core.x" ++ RBRACKET :: runes_of "k=1") 1 false)
     = @parse_loop ascii_tables 10 false ∅ (map (@lower ascii_tables) (runes_of "Core.x") ++ [DOT])
         (mkParser (runes_of "k=1") 1 false).
Proof.
  assert (Forall (@header_rune ascii_tables) (runes_of "Core.x")) as HF by header_runes.
  assert (length (runes_of "Core.x") < 10)%nat as Hf by (cbn; lia).
  split; [exact HF|]. split; [exact Hf|].
  exact (@parse_loop_plain_header ascii_tables _ _ _ _ _ _ HF Hf).
Defined.

Lemma parse_loop_extended_header_witness :
  Forall (@header_rune ascii_tables) (runes_of "Foo")
  /\ @blank ascii_tables SP /\ Forall (@blank ascii_tables) [TAB]
  /\ Forall quoted_ok ex_quoted_items
  /\ (length (runes_of "Foo") + length [TAB] + length ex_quoted_items + 2 < 12)%nat
  /\ @parse_loop ascii_tables 13 false ∅ []
       (mkParser (LBRACKET :: runes_of "Foo" ++ SP :: [TAB] ++ DQUOTE
                    :: flat_map quoted_text ex_quoted_items
                    ++ DQUOTE :: RBRACKET :: runes_of "k=1") 1 false)
     = @parse_loop ascii_tables 12 false ∅
         (map (@lower ascii_tables) (runes_of "Foo") ++ DOT
            :: map quoted_rune ex_quoted_items ++ [DOT])
         (mkParser (runes_of "k=1") 1 false).
Proof.
  assert (Forall (@header_rune ascii_tables) (runes_of "Foo")) as H1 by header_runes.
  assert (@blank ascii_tables SP) as H2 by (split; [reflexivity|discriminate]).
  assert (Forall (@blank ascii_tables) [TAB]) as H3 by blanks.
  assert (Forall quoted_ok ex_quoted_items) as H4 by (repeat constructor; cbn; lia).
  assert (length (runes_of "Foo") + length [TAB] + length ex_quoted_items + 2 < 12)%nat
    as H5 by (cbn; lia).
  split; [exact H1|]. split; [exact H2|]. split; [exact H3|]. split; [exact H4|].
  split; [exact H5|].
  exact (@parse_loop_extended_header ascii_tables _ _ _ _ _ _ _ _ _ H1 H2 H3 H4 H5).
Defined.

Lemma parse_loop_key_value_line_witness :
  @isalpha ascii_tables 75 = true
  /\ Forall (fun c => @iskeychar ascii_tables c = true) (runes_of "ey-2")
  /\ Forall key_blank [SP; TAB]
  /\ (length (runes_of "ey-2") + length [SP; TAB] + 1 < 9)%nat
  /\ @parse_loop ascii_tables 10 false ∅ (runes_of "a.")
       (mkParser (75 :: runes_of "ey-2" ++ [SP; TAB] ++ EQUALS :: runes_of " x") 1 false)
     = Some (({[ runes_of "a.Key-2" := runes_of "x" ]}, None), mkParser [] 1 true).
Proof.
  assert (@isalpha ascii_tables 75 = true) as H1 by reflexivity.
  assert (Forall (fun c => @iskeychar ascii_tables c = true) (runes_of "ey-2")) as H2
    by key_runes.
  assert (Forall key_blank [SP; TAB]) as H3
    by (repeat (apply Forall_cons; split; [first [left; reflexivity|right; reflexivity]|]);
        constructor).
  assert (length (runes_of "ey-2") + length [SP; TAB] + 1 < 9)%nat as H4 by (cbn; lia).
  split; [exact H1|]. split; [exact H2|]. split; [exact H3|]. split; [exact H4|].
  rewrite (@parse_loop_key_value_line ascii_tables 75 (runes_of "ey-2") [SP; TAB]
             (runes_of " x") 9 ∅ (runes_of "a.") 1 H1 H2 H3 H4).
  vm_compute. reflexivity.
Defined.

Lemma parse_loop_bare_key_witness :
  @isalpha ascii_tables 75 = true
  /\ Forall (fun c => @iskeychar ascii_tables c = true) (runes_of "ey-2")
  /\ Forall key_blank [SP; TAB]
  /\ (length (runes_of "ey-2") + length [SP; TAB] + 1 < 9)%nat
  /\ @parse_loop ascii_tables 10 false ∅ (runes_of "a.")
       (mkParser (75 :: runes_of "ey-2" ++ [SP; TAB]) 1 false)
     = Some ((<[runes_of "a." ++ 75 :: map (@lower ascii_tables) (runes_of "ey-2") := []]> ∅,
              None), mkParser [] 1 true).
Proof.
  assert (@isalpha ascii_tables 75 = true) as H1 by reflexivity.
  assert (Forall (fun c => @iskeychar ascii_tables c = true) (runes_of "ey-2")) as H2
    by key_runes.
  assert (Forall key_blank [SP; TAB]) as H3
    by (repeat (apply Forall_cons; split; [first [left; reflexivity|right; reflexivity]|]);
        constructor).
  assert (length (runes_of "ey-2") + length [SP; TAB] + 1 < 9)%nat as H4 by (cbn; lia).
  split; [exact H1|]. split; [exact H2|]. split; [exact H3|]. split; [exact H4|].
  exact (proj2 (@parse_loop_bare_key ascii_tables 75 (runes_of "ey-2") [SP; TAB]
                  9 ∅ (runes_of "a.") 1 H1 H2 H3 H4)).
Defined.

Lemma parse_loop_skips_witness :
  (HASH = HASH \/ HASH = SEMI) /\ one_line (runes_of " [x") /\ line_end [CR; NL]
  /\ @parse_loop ascii_tables (S (S (length (runes_of " [x"))) + 5) false ∅ []
       (mkParser (HASH :: runes_of " [x" ++ [CR; NL] ++ runes_of "k=1") 1 false)
     = @parse_loop ascii_tables 5 false ∅ [] (mkParser (runes_of "k=1") (uint_inc 1) false).
Proof.
  assert (HASH = HASH \/ HASH = SEMI) as H1 by now left.
  assert (one_line (runes_of " [x")) as H2 by (repeat constructor; discriminate).
  assert (line_end [CR; NL]) as H3 by now right.
  split; [exact H1|]. split; [exact H2|]. split; [exact H3|].
  exact (proj2 (proj2 (@parse_loop_skips ascii_tables 5 ∅ [] (runes_of "k=1") 1))
           HASH (runes_of " [x") [CR; NL] H1 H2 H3).
Defined.

Lemma parseValue_comment_witness :
  (SEMI = SEMI \/ SEMI = HASH) /\ one_line (runes_of " note") /\ line_end [NL]
  /\ @parseValue_loop ascii_tables (S (S (length (runes_of " note"))) + 3) false false 2
       (runes_of "x") (mkParser (SEMI :: runes_of " note" ++ [NL] ++ runes_of "k") 1 false)
     = Some ((runes_of "x", None), mkParser (runes_of "k") (uint_inc 1) false).
Proof.
  assert (SEMI = SEMI \/ SEMI = HASH) as H1 by now left.
  assert (one_line (runes_of " note")) as H2 by (repeat constructor; discriminate).
  assert (line_end [NL]) as H3 by now left.
  split; [exact H1|]. split; [exact H2|]. split; [exact H3|].
  exact (proj1 (@parseValue_comment ascii_tables SEMI 3 2 (runes_of "x")
                  (runes_of "k") 1 false H1) (runes_of " note") [NL] H2 H3).
Defined.

Lemma parseValue_quoted_witness :
  quoted_literal (runes_of " a;b# ")
  /\ @parseValue_loop ascii_tables (S (S (length (runes_of " a;b# "))) + 3) false false 1
       (runes_of "x")
       (mkParser (DQUOTE :: runes_of " a;b# " ++ DQUOTE :: runes_of "y") 1 false)
     = @parseValue_loop ascii_tables 3 false false 0
         (runes_of "x" ++ repeat SP 1 ++ runes_of " a;b# ")
         (mkParser (runes_of "y") 1 false).
Proof.
  assert (quoted_literal (runes_of " a;b# ")) as H1
    by (repeat constructor; discriminate).
  split; [exact H1|].
  exact (proj1 (@parseValue_quoted ascii_tables (runes_of " a;b# ") 3 1 (runes_of "x")
                  (runes_of "y") 1 false H1)).
Defined.

Lemma parseValue_escapes_witness :
  DQUOTE <> NL /\ DQUOTE <> LOWER_T /\ DQUOTE <> LOWER_B /\ DQUOTE <> LOWER_N
  /\ (DQUOTE <> CR \/ hd 0 (runes_of "y") <> NL)
  /\ @parseValue_loop ascii_tables 4 true false 0 (runes_of "x")
       (mkParser (BACKSLASH :: DQUOTE :: runes_of "y") 1 false)
     = Some (([], Some ErrInvalidEscapeSequence), mkParser (runes_of "y") 1 false).
Proof.
  assert (DQUOTE <> NL) as H1 by discriminate.
  assert (DQUOTE <> LOWER_T) as H2 by discriminate.
  assert (DQUOTE <> LOWER_B) as H3 by discriminate.
  assert (DQUOTE <> LOWER_N) as H4 by discriminate.
  assert (DQUOTE <> CR \/ hd 0 (runes_of "y") <> NL) as H5 by (left; discriminate).
  split; [exact H1|]. split; [exact H2|]. split; [exact H3|]. split; [exact H4|].
  split; [exact H5|].
  exact (proj2 (proj2 (@parseValue_escapes ascii_tables 3 true 0 (runes_of "x")
                         (runes_of "y") 1 false)) DQUOTE H1 H2 H3 H4 H5).
Defined.

Lemma Parse_lines_in_order_witness :
  Forall (fun kv => @plain_key ascii_tables kv.1 /\ @plain_value ascii_tables kv.2) ex_twice
  /\ (exists ln, @Parse ascii_tables (serialize ex_twice)
                 = Some (foldl put ∅ ex_twice, ln, None))
  /\ foldl put ∅ ex_twice !! runes_of "b" = Some (runes_of "2").
Proof.
  assert (Forall (fun kv => @plain_key ascii_tables kv.1 /\ @plain_value ascii_tables kv.2)
            ex_twice) as HF.
  { apply Forall_cons; split; [plain_entry|].
    apply Forall_cons; split; [plain_entry|constructor]. }
  split; [exact HF|].
  destruct (@Parse_lines_in_order ascii_tables ex_twice HF) as [H1 H2].
  split; [exact H1|].
  apply (H2 [(runes_of "b", runes_of "1")] (runes_of "b") (runes_of "2") []);
    [reflexivity|apply not_elem_of_nil].
Defined.

Lemma Parse_serialize_section_witness :
  Forall (@header_rune ascii_tables) (runes_of "Core")
  /\ Forall (fun kv => @plain_key ascii_tables kv.1 /\ @plain_value ascii_tables kv.2)
       ex_plain_entries
  /\ exists ln,
       @Parse ascii_tables (serialize_section (runes_of "Core") ex_plain_entries)
       = Some (foldl put ∅
                 (under (map (@lower ascii_tables) (runes_of "Core") ++ [DOT])
                    <$> ex_plain_entries), ln, None).
Proof.
  assert (Forall (@header_rune ascii_tables) (runes_of "Core")) as H1 by header_runes.
  assert (Forall (fun kv => @plain_key ascii_tables kv.1 /\ @plain_value ascii_tables kv.2)
            ex_plain_entries) as H2.
  { apply Forall_cons; split; [plain_entry|].
    apply Forall_cons; split; [plain_entry|constructor]. }
  split; [exact H1|]. split; [exact H2|].
  exact (@Parse_serialize_section ascii_tables _ _ H1 H2).
Defined.

Lemma section_header_faults_witness :
  Forall (@header_rune ascii_tables) (runes_of "a")
  /\ @blank ascii_tables SP /\ Forall (@blank ascii_tables) [SP]
  /\ @isspace ascii_tables 120 = false /\ 120 <> DQUOTE /\ (length [SP] + 1 < 3)%nat
  /\ @parse_loop ascii_tables (S (length (runes_of "a") + 4)) false ∅ []
       (mkParser (LBRACKET :: runes_of "a" ++ SP :: [SP] ++ 120 :: runes_of "]") 1 false)
     = Some ((∅, Some ErrMissingStartQuote), mkParser (runes_of "]") 1 false).
Proof.
  assert (Forall (@header_rune ascii_tables) (runes_of "a")) as H1 by header_runes.
  assert (@blank ascii_tables SP) as H2 by (split; [reflexivity|discriminate]).
  assert (Forall (@blank ascii_tables) [SP]) as H3 by blanks.
  assert (@isspace ascii_tables 120 = false) as H4 by reflexivity.
  assert (120 <> DQUOTE) as H5 by discriminate.
  assert (length [SP] + 1 < 3)%nat as H6 by (cbn; lia).
  split; [exact H1|]. split; [exact H2|]. split; [exact H3|]. split; [exact H4|].
  split; [exact H5|]. split; [exact H6|].
  exact (proj1 (proj2 (@section_header_faults ascii_tables (runes_of "a") 3 ∅ [] 1 H1))
           SP [SP] 120 (runes_of "]") H2 H3 H4 H5 H6).
Defined.

Lemma Parse_unix_witness :
  dos ex_dos
  /\ @Parse ascii_tables (unix ex_dos) = @Parse ascii_tables ex_dos
  /\ @Parse ascii_tables ex_dos = Some ({[ runes_of "a.b" := runes_of "1" ]}, 3, None).
Proof.
  assert (dos ex_dos) as Hd.
  { cbn. repeat split; intros H; first [reflexivity|discriminate H]. }
  split; [exact Hd|]. split; [exact (@Parse_unix ascii_tables ex_dos Hd)|].
  vm_compute. reflexivity.
Defined.

Lemma section_header_at_end_of_input_witness :
  Forall (@section_rune ascii_tables) (runes_of "core.x")
  /\ @Parse ascii_tables (LBRACKET :: runes_of "core.x")
     = Some (∅, 1, Some ErrUnexpectedEOF)
  /\ Forall (@header_rune ascii_tables) (runes_of "a")
  /\ @blank ascii_tables SP /\ Forall (@blank ascii_tables) [TAB]
  /\ Forall quoted_ok ex_quoted_items
  /\ @Parse ascii_tables (LBRACKET :: runes_of "a" ++ SP :: [TAB])
     = Some (∅, 0, Some ErrSectionNewLine)
  /\ @Parse ascii_tables
       (LBRACKET :: runes_of "a" ++ SP :: [TAB] ++ DQUOTE
          :: flat_map quoted_text ex_quoted_items ++ [BACKSLASH])
     = Some (∅, 0, Some ErrSectionNewLine)
  /\ @Parse ascii_tables
       (LBRACKET :: runes_of "a" ++ SP :: [TAB] ++ DQUOTE
          :: flat_map quoted_text ex_quoted_items ++ [DQUOTE])
     = Some (∅, 1, Some ErrMissingClosingBracket)
  /\ eof (mkParser (tail ex_extended_eof_closed) 1 false) = false
  /\ @getSectionKey ascii_tables 9 (mkParser (tail ex_extended_eof_closed) 1 false)
     = Some (([], Some ErrMissingClosingBracket), mkParser [] 1 true)
  /\ eof (mkParser [] 1 true) = true
  /\ Exists (fun c => @isspace ascii_tables c = true) (tail ex_extended_eof_closed)
  /\ ((([], Some ErrMissingClosingBracket) : list Z * option Error)
        = ([], Some ErrSectionNewLine)
      \/ (([], Some ErrMissingClosingBracket) : list Z * option Error)
        = ([], Some ErrMissingClosingBracket)).
Proof.
  assert (Forall (@section_rune ascii_tables) (runes_of "core.x")) as HF.
  { repeat constructor; cbn; lia. }
  assert (Forall (@header_rune ascii_tables) (runes_of "a")) as H1 by header_runes.
  assert (@blank ascii_tables SP) as H2 by (split; [reflexivity|discriminate]).
  assert (Forall (@blank ascii_tables) [TAB]) as H3 by blanks.
  assert (Forall quoted_ok ex_quoted_items) as H4 by (repeat constructor; cbn; lia).
  assert (@getSectionKey ascii_tables 9 (mkParser (tail ex_extended_eof_closed) 1 false)
          = Some (([], Some ErrMissingClosingBracket), mkParser [] 1 true)) as HG
    by (vm_compute; reflexivity).
  assert (Exists (fun c => @isspace ascii_tables c = true) (tail ex_extended_eof_closed))
    as HE by (apply Exists_cons_tl, Exists_cons_hd; reflexivity).
  pose proof (proj1 (proj2 (@section_header_at_end_of_input ascii_tables))
                (runes_of "a") SP [TAB] H1 H2 H3) as (P1 & P2 & P3 & _).
  split; [exact HF|]. split.
  { apply (proj1 (@section_header_at_end_of_input ascii_tables)), HF. }
  split; [exact H1|]. split; [exact H2|]. split; [exact H3|]. split; [exact H4|].
  split; [exact P1|].
  split; [exact (P2 ex_quoted_items [BACKSLASH] H4 (or_intror eq_refl))|].
  split; [exact (P3 ex_quoted_items H4)|].
  split; [reflexivity|]. split; [exact HG|]. split; [reflexivity|]. split; [exact HE|].
  exact (proj2 (proj2 (proj2 (@section_header_at_end_of_input ascii_tables)) 9%nat
                  (mkParser (tail ex_extended_eof_closed) 1 false) _ _
                  eq_refl HG eq_refl) HE).
Defined.


